(** * CustomRender: the intake / queue / flush scheduler of [src/index.ts]

    A shallow embedding of the DOM throttling plugin.  The module-level
    variables of the plugin ([rafId], [pendingQueue], [pendingSet],
    [isFlushing], ...) and the parts of the host they touch (class lists,
    the animation-frame callback list, the clock) are gathered in one
    [State] record, and every function of the source is a state
    transformer over it.  The status indicator, the style sheet and the
    app-mount polling loop do not touch any of these and are left out. *)

From stdpp Require Import gmap strings list fin_maps fin_sets.
From Stdlib Require Import ZArith QArith Lia.

#[local] Set Warnings "-clear-no-such-hyp".

Local Open Scope Z_scope.

(** ** Constants *)

Definition PENDING_CLASS : string := "dom-vsync-pending".
Definition IGNORE_ATTR : string := "data-dom-vsync-ignore".
Definition QUEUE_LIMIT : nat := 4000.
Definition EXCLUDED_TAGS : gset string :=
  list_to_set ["HTML"; "HEAD"; "BODY"; "STYLE"; "SCRIPT"; "LINK"; "META"].

(** ** The DOM as the plugin sees it *)

(** A node reference: the identity of a DOM node. *)
Definition Ref : Type := positive.
Bind Scope positive_scope with Ref.

(** What the plugin reads of an element: identity, [tagName], [id] and the
    names of the attributes it carries. *)
Record Elem : Type := mkElem {
  ref : Ref;
  tagName : string;
  id : string;
  attributes : list string
}.

(** A DOM subtree.  [Other] stands for the nodes whose [nodeType] is not
    [ELEMENT_NODE] (text, comments); they have no children. *)
#[local] Unset Elimination Schemes.
Inductive Node : Type :=
| Element (e : Elem) (childNodes : list Node)
| Other (r : Ref).
#[local] Set Elimination Schemes.

(** A node as a mutation record delivers it: the subtree together with the
    chain of its ancestor elements, nearest first. *)
Record Inserted : Type := mkInserted {
  ancestors : list Elem;
  node : Node
}.

Record MutationRecord : Type := mkMutation {
  addedNodes : list Inserted
}.

Definition hasAttribute (name : string) (e : Elem) : bool :=
  bool_decide (name ∈ attributes e).

(** [root.closest("[name]")]: the element itself or one of its ancestors
    carries the attribute. *)
Definition closest (name : string) (e : Elem) (above : list Elem) : bool :=
  existsb (hasAttribute name) (e :: above).

(** *** Class lists ([DOMTokenList]) *)

Definition token_add (tok : string) (l : list string) : list string :=
  if bool_decide (tok ∈ l) then l else l ++ [tok].

Definition token_remove (tok : string) (l : list string) : list string :=
  filter (λ t, t ≠ tok) l.

(** The class list of every element; an element that is not in the map has
    no class. *)
Definition classListOf (d : gmap Ref (list string)) (el : Ref) : list string :=
  default [] (d !! el).

Definition classList_add (tok : string) (el : Ref)
    (d : gmap Ref (list string)) : gmap Ref (list string) :=
  <[el := token_add tok (classListOf d el)]> d.

Definition classList_remove (tok : string) (el : Ref)
    (d : gmap Ref (list string)) : gmap Ref (list string) :=
  alter (token_remove tok) el d.

Definition classList_contains (tok : string) (el : Ref)
    (d : gmap Ref (list string)) : bool :=
  bool_decide (tok ∈ classListOf d el).

(** ** Settings and module state *)

Record Settings : Type := mkSettings {
  active : bool;
  startDelayMs : Z;
  frameBudgetMs : Z;
  maxOpsPerFrame : Z;
  indicator : bool
}.

Record State : Type := mkState {
  (* the plugin *)
  store : Settings;
  pluginName : string;
  rafId : Z;
  pendingQueue : list Ref;
  pendingSet : gset Ref;
  isFlushing : bool;
  isStopped : bool;
  observer : bool;          (* [observer !== null] *)
  startDelayTimer : bool;   (* [startDelayTimer !== null] *)
  pollTimer : bool;         (* [pollTimer !== null] *)
  appMount : bool;          (* [appMount !== null] *)
  activeListener : bool;    (* [activeListener !== null] *)
  (* the host *)
  classes : gmap Ref (list string);
  frameCallbacks : gset positive;  (* handles requested and not yet run or canceled *)
  rafCounter : positive;           (* the last handle handed out *)
  ticks : nat                      (* calls of [performance.now()] so far *)
}.

Definition set_store (v : Settings) (s : State) : State :=
  mkState v (pluginName s) (rafId s) (pendingQueue s) (pendingSet s)
    (isFlushing s) (isStopped s) (observer s) (startDelayTimer s)
    (pollTimer s) (appMount s) (activeListener s) (classes s) (frameCallbacks s) (rafCounter s) (ticks s).
Definition set_rafId (v : Z) (s : State) : State :=
  mkState (store s) (pluginName s) v (pendingQueue s) (pendingSet s)
    (isFlushing s) (isStopped s) (observer s) (startDelayTimer s)
    (pollTimer s) (appMount s) (activeListener s) (classes s) (frameCallbacks s) (rafCounter s) (ticks s).
Definition set_pendingQueue (v : list Ref) (s : State) : State :=
  mkState (store s) (pluginName s) (rafId s) v (pendingSet s)
    (isFlushing s) (isStopped s) (observer s) (startDelayTimer s)
    (pollTimer s) (appMount s) (activeListener s) (classes s) (frameCallbacks s) (rafCounter s) (ticks s).
Definition set_pendingSet (v : gset Ref) (s : State) : State :=
  mkState (store s) (pluginName s) (rafId s) (pendingQueue s) v
    (isFlushing s) (isStopped s) (observer s) (startDelayTimer s)
    (pollTimer s) (appMount s) (activeListener s) (classes s) (frameCallbacks s) (rafCounter s) (ticks s).
Definition set_isFlushing (v : bool) (s : State) : State :=
  mkState (store s) (pluginName s) (rafId s) (pendingQueue s) (pendingSet s)
    v (isStopped s) (observer s) (startDelayTimer s)
    (pollTimer s) (appMount s) (activeListener s) (classes s) (frameCallbacks s) (rafCounter s) (ticks s).
Definition set_isStopped (v : bool) (s : State) : State :=
  mkState (store s) (pluginName s) (rafId s) (pendingQueue s) (pendingSet s)
    (isFlushing s) v (observer s) (startDelayTimer s)
    (pollTimer s) (appMount s) (activeListener s) (classes s) (frameCallbacks s) (rafCounter s) (ticks s).
Definition set_observer (v : bool) (s : State) : State :=
  mkState (store s) (pluginName s) (rafId s) (pendingQueue s) (pendingSet s)
    (isFlushing s) (isStopped s) v (startDelayTimer s)
    (pollTimer s) (appMount s) (activeListener s) (classes s) (frameCallbacks s) (rafCounter s) (ticks s).
Definition set_startDelayTimer (v : bool) (s : State) : State :=
  mkState (store s) (pluginName s) (rafId s) (pendingQueue s) (pendingSet s)
    (isFlushing s) (isStopped s) (observer s) v
    (pollTimer s) (appMount s) (activeListener s) (classes s) (frameCallbacks s) (rafCounter s) (ticks s).
Definition set_pollTimer (v : bool) (s : State) : State :=
  mkState (store s) (pluginName s) (rafId s) (pendingQueue s) (pendingSet s)
    (isFlushing s) (isStopped s) (observer s) (startDelayTimer s)
    v (appMount s) (activeListener s) (classes s) (frameCallbacks s) (rafCounter s) (ticks s).
Definition set_appMount (v : bool) (s : State) : State :=
  mkState (store s) (pluginName s) (rafId s) (pendingQueue s) (pendingSet s)
    (isFlushing s) (isStopped s) (observer s) (startDelayTimer s)
    (pollTimer s) v (activeListener s) (classes s) (frameCallbacks s) (rafCounter s) (ticks s).
Definition set_activeListener (v : bool) (s : State) : State :=
  mkState (store s) (pluginName s) (rafId s) (pendingQueue s) (pendingSet s)
    (isFlushing s) (isStopped s) (observer s) (startDelayTimer s)
    (pollTimer s) (appMount s) v (classes s) (frameCallbacks s) (rafCounter s) (ticks s).
Definition set_classes (v : gmap Ref (list string)) (s : State) : State :=
  mkState (store s) (pluginName s) (rafId s) (pendingQueue s) (pendingSet s)
    (isFlushing s) (isStopped s) (observer s) (startDelayTimer s)
    (pollTimer s) (appMount s) (activeListener s) v (frameCallbacks s) (rafCounter s) (ticks s).
Definition set_frameCallbacks (v : gset positive) (s : State) : State :=
  mkState (store s) (pluginName s) (rafId s) (pendingQueue s) (pendingSet s)
    (isFlushing s) (isStopped s) (observer s) (startDelayTimer s)
    (pollTimer s) (appMount s) (activeListener s) (classes s) v (rafCounter s) (ticks s).
Definition set_rafCounter (v : positive) (s : State) : State :=
  mkState (store s) (pluginName s) (rafId s) (pendingQueue s) (pendingSet s)
    (isFlushing s) (isStopped s) (observer s) (startDelayTimer s)
    (pollTimer s) (appMount s) (activeListener s) (classes s) (frameCallbacks s) v (ticks s).
Definition set_ticks (v : nat) (s : State) : State :=
  mkState (store s) (pluginName s) (rafId s) (pendingQueue s) (pendingSet s)
    (isFlushing s) (isStopped s) (observer s) (startDelayTimer s)
    (pollTimer s) (appMount s) (activeListener s) (classes s) (frameCallbacks s) (rafCounter s) v.

Definition set_active (v : bool) (c : Settings) : Settings :=
  mkSettings v (startDelayMs c) (frameBudgetMs c) (maxOpsPerFrame c) (indicator c).

(** ** Host primitives *)

(** [requestAnimationFrame(flushQueue)]: a fresh handle, never zero, joins the
    callback list. *)
Definition requestAnimationFrame (s : State) : positive * State :=
  let h := Pos.succ (rafCounter s) in
  (h, set_frameCallbacks ({[h]} ∪ frameCallbacks s) (set_rafCounter h s)).

(** [cancelAnimationFrame(handle)]; a handle that is not a positive number
    names no callback. *)
Definition cancelAnimationFrame (handle : Z) (s : State) : State :=
  match handle with
  | Z.pos h => set_frameCallbacks (frameCallbacks s ∖ {[h]}) s
  | _ => s
  end.

(** [performance.now()]: the clock gives the reading of each call in turn, in
    milliseconds. *)
Definition performance_now (clock : nat → Q) (s : State) : Q * State :=
  (clock (ticks s), set_ticks (S (ticks s)) s).

(** [Array.prototype.pop]: the last entry and the array without it. *)
Definition pop {A} (q : list A) : option (A * list A) :=
  match last q with
  | Some x => Some (x, removelast q)
  | None => None
  end.

(** ** The scheduler *)

(** [setFlushing]; the indicator it refreshes is not modelled. *)
Definition setFlushing (next : bool) (s : State) : State :=
  if Bool.eqb (isFlushing s) next then s else set_isFlushing next s.

(** The Reveal Action, [el.classList.remove(PENDING_CLASS)]. *)
Definition reveal (el : Ref) (s : State) : State :=
  set_classes (classList_remove PENDING_CLASS el (classes s)) s.

(** The [for (const el of pendingSet)] loop of [revealAllPending]. *)
Definition revealEach (els : list Ref) (s : State) : State :=
  foldl (λ acc el, reveal el acc) s els.

Definition revealAllPending (s : State) : State :=
  let s := if bool_decide (rafId s ≠ 0)
           then set_rafId 0 (cancelAnimationFrame (rafId s) s)
           else s in
  let s := revealEach (elements (pendingSet s)) s in
  let s := set_pendingSet ∅ s in
  let s := set_pendingQueue [] s in
  setFlushing false s.

Definition scheduleFlush (s : State) : State :=
  if negb (active (store s)) then s
  else if bool_decide (rafId s ≠ 0) || bool_decide (length (pendingQueue s) = 0%nat)
  then s
  else
    let '(h, s) := requestAnimationFrame s in
    let s := set_rafId (Z.pos h) s in
    setFlushing true s.

(** One turn of the [while] loop of [flushQueue] up to its budget checks:
    [pop], [pendingSet.delete], reveal.  [None] when the queue is empty. *)
Definition drainNext (s : State) : option (Ref * State) :=
  match pop (pendingQueue s) with
  | None => None
  | Some (el, rest) =>
      let s := set_pendingQueue rest s in
      let s := set_pendingSet (pendingSet s ∖ {[el]}) s in
      Some (el, reveal el s)
  end.

(** The [while (pendingQueue.length > 0)] loop.  Every turn pops one entry,
    so [fuel = pendingQueue.length] turns are enough (see
    [flushLoop_fuel]). *)
Fixpoint flushLoop (clock : nat → Q) (maxOps frameBudget : Z) (start : Q)
    (fuel : nat) (ops : Z) (s : State) : State :=
  match fuel with
  | O => s
  | S fuel =>
      match drainNext s with
      | None => s
      | Some (_, s) =>
          let ops := ops + 1 in
          if bool_decide (maxOps ≤ ops) then s
          else
            let '(now, s) := performance_now clock s in
            if Qle_bool (inject_Z frameBudget) (now - start) then s
            else flushLoop clock maxOps frameBudget start fuel ops s
      end
  end.

Definition flushQueue (clock : nat → Q) (s : State) : State :=
  let s := set_rafId 0 s in
  if negb (active (store s)) then revealAllPending s
  else if bool_decide (length (pendingQueue s) = 0%nat) then setFlushing false s
  else
    let maxOps := maxOpsPerFrame (store s) in
    let frameBudget := frameBudgetMs (store s) in
    let '(start, s) := performance_now clock s in
    let s := flushLoop clock maxOps frameBudget start
               (length (pendingQueue s)) 0 s in
    if bool_decide (0 < length (pendingQueue s))%nat
    then scheduleFlush s
    else setFlushing false s.

Definition shouldSkipElement (element : Elem) : bool :=
  if bool_decide (id element = "app-mount") then true
  else if bool_decide (tagName element ∈ EXCLUDED_TAGS) then true
  else false.

Definition enqueueElement (element : Ref) (s : State) : State :=
  if bool_decide (element ∈ pendingSet s) then s
  else
    let s := set_classes (classList_add PENDING_CLASS element (classes s)) s in
    let s := set_pendingSet ({[element]} ∪ pendingSet s) s in
    set_pendingQueue (pendingQueue s ++ [element]) s.

(** *** The tree walker *)

Inductive FilterResult : Type := FILTER_ACCEPT | FILTER_REJECT | FILTER_SKIP.

(** The [acceptNode] callback handed to [createTreeWalker]. *)
Definition acceptNode (element : Elem) : FilterResult :=
  if shouldSkipElement element then FILTER_SKIP
  else if hasAttribute IGNORE_ATTR element then FILTER_REJECT
  else FILTER_ACCEPT.

(** The elements [walker.nextNode()] returns while it crosses the subtree
    [n] below the walker's root, in document order, as the DOM standard
    defines the traversal with [whatToShow = SHOW_ELEMENT]: an accepted
    element is returned and its children are visited, a skipped node is not
    returned but its children are visited, a rejected element is passed over
    together with its subtree.  Nodes that are not elements are skipped by
    [whatToShow] before the callback is asked. *)
Fixpoint nextNodes (n : Node) : list Elem :=
  match n with
  | Other _ => []
  | Element e children =>
      match acceptNode e with
      | FILTER_ACCEPT => e :: flat_map nextNodes children
      | FILTER_SKIP => flat_map nextNodes children
      | FILTER_REJECT => []
      end
  end.

(** The values [current] takes in the loop of [enqueueTree]: first
    [walker.currentNode], which is the root itself and is not passed through
    the filter, then what [nextNode()] returns until it gives [null]. *)
Definition walk (root : Elem) (children : list Node) : list Elem :=
  root :: flat_map nextNodes children.

(** The [while (current)] loop of [enqueueTree]. *)
Definition enqueueWalk (root : Elem) (children : list Node) (s : State) : State :=
  foldl (λ acc current, enqueueElement (ref current) acc) s (walk root children).

Definition enqueueTree (n : Inserted) (s : State) : State :=
  if negb (active (store s)) then s
  else match node n with
  | Other _ => s
  | Element root children =>
      if closest IGNORE_ATTR root (ancestors n) then s
      else
        let s := enqueueWalk root children s in
        if bool_decide (QUEUE_LIMIT ≤ length (pendingQueue s))%nat
        then revealAllPending s
        else scheduleFlush s
  end.

Definition handleMutations (mutations : list MutationRecord) (s : State) : State :=
  if negb (active (store s)) then s
  else
    foldl (λ acc mutation,
             foldl (λ acc' n, enqueueTree n acc') acc (addedNodes mutation))
          s mutations.

(** ** Life cycle *)

Definition startObserver (s : State) : State :=
  if negb (appMount s) || observer s then s else set_observer true s.

Definition stopObserver (s : State) : State := set_observer false s.

(** [isAppMountReady]; [ready] tells whether the document holds a populated
    [#app-mount] at this moment. *)
Definition isAppMountReady (ready : bool) (s : State) : bool * State :=
  if ready then (true, set_appMount true s) else (false, s).

Definition scheduleThrottleStart (s : State) : State :=
  if isStopped s then s else set_startDelayTimer true s.

(** The one-shot callback armed by [scheduleThrottleStart]. *)
Definition startDelayElapsed (s : State) : State :=
  let s := set_startDelayTimer false s in
  if isStopped s then s else startObserver s.

Definition onAppMountReady (s : State) : State := scheduleThrottleStart s.

Definition waitForAppMount (ready : bool) (s : State) : State :=
  if isStopped s then s
  else
    let '(r, s) := isAppMountReady ready s in
    if r then onAppMountReady s
    else if pollTimer s then s
    else set_pollTimer true s.

(** The interval callback armed by [waitForAppMount]. *)
Definition pollElapsed (ready : bool) (s : State) : State :=
  if isStopped s then s
  else
    let '(r, s) := isAppMountReady ready s in
    if r then onAppMountReady (set_pollTimer false s) else s.

Definition registerSettingsListeners (s : State) : State :=
  if bool_decide (pluginName s = "") then s else set_activeListener true s.

Definition unregisterSettingsListeners (s : State) : State :=
  if bool_decide (pluginName s = "") then s else set_activeListener false s.

(** The listener on [plugins.<name>.active]. *)
Definition onActiveChanged (value : bool) (s : State) : State :=
  if negb value then revealAllPending s else scheduleFlush s.

Definition start (ready : bool) (s : State) : State :=
  let s := set_isStopped false s in
  let s := registerSettingsListeners s in
  waitForAppMount ready s.

Definition stop (s : State) : State :=
  let s := set_isStopped true s in
  let s := unregisterSettingsListeners s in
  let s := stopObserver s in
  let s := revealAllPending s in
  let s := set_pollTimer false s in
  let s := set_startDelayTimer false s in
  set_appMount false s.

(** ** Sessions

    What the host can do to a session between two observable points: start
    and stop the plugin, fire a timer, deliver a batch of mutations to a
    connected observer, run a requested frame callback, or write a setting.
    The settings store calls the listener of [active] whenever one is
    registered. *)

Inductive Event : Type :=
| EvStart (ready : bool)
| EvPoll (ready : bool)
| EvStartDelay
| EvStop
| EvMutations (mutations : list MutationRecord)
| EvFrame (handle : positive) (clock : nat → Q)
| EvSetActive (value : bool)
| EvSetFrameBudgetMs (value : Z)
| EvSetMaxOpsPerFrame (value : Z).

Definition step (ev : Event) (s : State) : State :=
  match ev with
  | EvStart ready => start ready s
  | EvPoll ready => if pollTimer s then pollElapsed ready s else s
  | EvStartDelay => if startDelayTimer s then startDelayElapsed s else s
  | EvStop => stop s
  | EvMutations mutations =>
      if observer s then handleMutations mutations s else s
  | EvFrame handle clock =>
      if bool_decide (handle ∈ frameCallbacks s)
      then flushQueue clock (set_frameCallbacks (frameCallbacks s ∖ {[handle]}) s)
      else s
  | EvSetActive value =>
      let s := set_store (set_active value (store s)) s in
      if activeListener s then onActiveChanged value s else s
  | EvSetFrameBudgetMs value =>
      set_store (mkSettings (active (store s)) (startDelayMs (store s)) value
                   (maxOpsPerFrame (store s)) (indicator (store s))) s
  | EvSetMaxOpsPerFrame value =>
      set_store (mkSettings (active (store s)) (startDelayMs (store s))
                   (frameBudgetMs (store s)) value (indicator (store s))) s
  end.

Definition run (evs : list Event) (s : State) : State :=
  foldl (λ acc ev, step ev acc) s evs.

(** The state when the module has just been loaded: nothing pending, nothing
    scheduled, no timer, and the plugin's name filled in by the host. *)
Definition initialState (cfg : Settings) (name : string)
    (dom : gmap Ref (list string)) : State :=
  mkState cfg name 0 [] ∅ false false false false false false false dom ∅ 1%positive 0%nat.

(** The Hidden Marker of the spec: the element carries [PENDING_CLASS]. *)
Definition hidden (s : State) (el : Ref) : Prop :=
  PENDING_CLASS ∈ classListOf (classes s) el.

(** The elements that carry the marker. *)
Definition hiddenNodes (s : State) : gset Ref :=
  dom (filter (λ p, PENDING_CLASS ∈ p.2) (classes s)).

Inductive reachable : State → Prop :=
| reachable_init cfg name dom :
    name ≠ "" →
    (∀ el, PENDING_CLASS ∉ classListOf dom el) →
    reachable (initialState cfg name dom)
| reachable_step ev s :
    reachable s → reachable (step ev s).

(** The operations on the Pending Store and the functions built from them,
    applied in any order and in any state. *)
Inductive Op : Type :=
| OpEnqueueElement (element : Ref)
| OpDrainNext
| OpRevealAllPending
| OpScheduleFlush
| OpFlushQueue (clock : nat → Q)
| OpEnqueueTree (n : Inserted)
| OpHandleMutations (mutations : list MutationRecord)
| OpStop
| OpEvent (ev : Event).

Definition applyOp (op : Op) (s : State) : State :=
  match op with
  | OpEnqueueElement element => enqueueElement element s
  | OpDrainNext => match drainNext s with Some (_, s') => s' | None => s end
  | OpRevealAllPending => revealAllPending s
  | OpScheduleFlush => scheduleFlush s
  | OpFlushQueue clock => flushQueue clock s
  | OpEnqueueTree n => enqueueTree n s
  | OpHandleMutations mutations => handleMutations mutations s
  | OpStop => stop s
  | OpEvent ev => step ev s
  end.

Inductive reachable_by_ops : State → Prop :=
| by_ops_init cfg name dom :
    (∀ el, PENDING_CLASS ∉ classListOf dom el) →
    reachable_by_ops (initialState cfg name dom)
| by_ops_apply op s :
    reachable_by_ops s → reachable_by_ops (applyOp op s).

(** ** Invariants of the Pending Store *)

(** The set and the sequence hold the same references, the sequence holds
    none twice, and the marker is on exactly the pending elements. *)
Record StoreInv (s : State) : Prop := mkStoreInv {
  inv_set : pendingSet s = list_to_set (pendingQueue s);
  inv_nodup : NoDup (pendingQueue s);
  inv_hidden : ∀ el, hidden s el ↔ el ∈ pendingSet s
}.

(** The frame callback list holds the handle in [rafId] and nothing else; a
    callback is outstanding exactly while elements are pending, and the
    flushing flag follows it. *)
Record FrameInv (s : State) : Prop := mkFrameInv {
  inv_callbacks :
    frameCallbacks s = match rafId s with Z.pos h => {[h]} | _ => ∅ end;
  inv_rafId : 0 ≤ rafId s;
  inv_scheduled : rafId s ≠ 0 ↔ pendingQueue s ≠ [];
  inv_flushing : isFlushing s = bool_decide (rafId s ≠ 0)
}.

(** Nothing is pending while the plugin is switched off or while nobody
    listens to the switch, and the observer and the timers only live while
    the listener is registered. *)
Record SessionInv (s : State) : Prop := mkSessionInv {
  inv_store : StoreInv s;
  inv_frame : FrameInv s;
  inv_name : pluginName s ≠ "";
  inv_inactive : active (store s) = false → pendingQueue s = [];
  inv_unlistened : activeListener s = false → pendingQueue s = [];
  inv_listened :
    observer s = true ∨ pollTimer s = true ∨ startDelayTimer s = true →
    activeListener s = true
}.

(** * Lemmas *)

(** ** Class lists *)

Lemma token_add_elem tok t l : t ∈ token_add tok l ↔ t = tok ∨ t ∈ l.
Proof.
  unfold token_add. destruct (bool_decide_reflect (tok ∈ l)).
  - split; [auto|]. intros [->|]; done.
  - rewrite elem_of_app, list_elem_of_singleton. tauto.
Qed.

Lemma token_remove_elem tok t l : t ∈ token_remove tok l ↔ t ≠ tok ∧ t ∈ l.
Proof. unfold token_remove. by rewrite list_elem_of_filter. Qed.

Lemma token_remove_absent tok l : tok ∉ l → token_remove tok l = l.
Proof.
  intros H. unfold token_remove. induction l as [|x l IH]; [done|].
  rewrite filter_cons. rewrite not_elem_of_cons in H. destruct H as [? ?].
  rewrite decide_True by congruence. f_equal; auto.
Qed.

Lemma token_remove_idemp tok l :
  token_remove tok (token_remove tok l) = token_remove tok l.
Proof. apply token_remove_absent. rewrite token_remove_elem. tauto. Qed.

Lemma classListOf_add tok el el' d :
  classListOf (classList_add tok el d) el' =
  if decide (el = el') then token_add tok (classListOf d el) else classListOf d el'.
Proof.
  unfold classList_add, classListOf at 1. rewrite lookup_insert.
  by destruct (decide (el = el')).
Qed.

Lemma classListOf_remove tok el el' d :
  classListOf (classList_remove tok el d) el' =
  if decide (el = el') then token_remove tok (classListOf d el) else classListOf d el'.
Proof.
  unfold classList_remove, classListOf. rewrite lookup_alter.
  destruct (decide (el = el')) as [->|]; [|done].
  by destruct (d !! el').
Qed.

Lemma classList_remove_absent tok el d :
  tok ∉ classListOf d el → classList_remove tok el d = d.
Proof.
  intros H. apply map_eq. intros i. unfold classList_remove.
  rewrite lookup_alter. destruct (decide (el = i)) as [->|]; [|done].
  unfold classListOf in H. destruct (d !! i) as [l|]; simpl in *; [|done].
  by rewrite token_remove_absent.
Qed.

Lemma classList_remove_idemp tok el d :
  classList_remove tok el (classList_remove tok el d) = classList_remove tok el d.
Proof.
  apply classList_remove_absent. rewrite classListOf_remove.
  rewrite decide_True by done. rewrite token_remove_elem. tauto.
Qed.

Lemma elem_of_hiddenNodes s el : el ∈ hiddenNodes s ↔ hidden s el.
Proof.
  unfold hiddenNodes, hidden, classListOf. rewrite elem_of_dom. split.
  - intros [l Hl]. apply map_lookup_filter_Some in Hl as [-> Hl]. done.
  - intros H. destruct (classes s !! el) as [l|] eqn:E; simpl in H.
    + exists l. apply map_lookup_filter_Some. done.
    + by apply elem_of_nil in H.
Qed.

(** ** [pop] *)

Lemma pop_snoc {A} (q : list A) x : pop (q ++ [x]) = Some (x, q).
Proof. unfold pop. by rewrite last_snoc, removelast_last. Qed.

Lemma pop_nil {A} : pop (@nil A) = None.
Proof. done. Qed.

Lemma pop_Some {A} (q r : list A) x : pop q = Some (x, r) ↔ q = r ++ [x].
Proof.
  split; [|intros ->; apply pop_snoc].
  destruct q as [|y q _] using rev_ind; [done|].
  rewrite pop_snoc. congruence.
Qed.

Lemma pop_None {A} (q : list A) : pop q = None ↔ q = [].
Proof.
  split; [|by intros ->].
  destruct q as [|y q _] using rev_ind; [done|]. by rewrite pop_snoc.
Qed.

(** ** Normal forms of the state transformers *)

Lemma setFlushing_eq next s : setFlushing next s = set_isFlushing next s.
Proof.
  unfold setFlushing. destruct (Bool.eqb (isFlushing s) next) eqn:E; [|done].
  apply Bool.eqb_prop in E. subst next. by destruct s.
Qed.

Definition revealClasses (els : list Ref) (d : gmap Ref (list string)) :
    gmap Ref (list string) :=
  foldl (λ acc el, classList_remove PENDING_CLASS el acc) d els.

Lemma revealEach_eq els s :
  revealEach els s = set_classes (revealClasses els (classes s)) s.
Proof.
  revert s. induction els as [|el els IH]; intros s.
  - by destruct s.
  - change (revealEach (el :: els) s) with (revealEach els (reveal el s)).
    by rewrite IH.
Qed.

Lemma classListOf_revealClasses els d el :
  PENDING_CLASS ∈ classListOf (revealClasses els d) el ↔
  PENDING_CLASS ∈ classListOf d el ∧ el ∉ els.
Proof.
  revert d. induction els as [|x els IH]; intros d.
  - simpl. rewrite elem_of_nil. tauto.
  - change (revealClasses (x :: els) d)
      with (revealClasses els (classList_remove PENDING_CLASS x d)).
    rewrite IH, classListOf_remove, not_elem_of_cons.
    destruct (decide (x = el)) as [->|].
    + rewrite token_remove_elem. tauto.
    + split; [intros [? ?]|intros [? [? ?]]]; repeat split; auto.
Qed.

(** The callbacks left after [cancelAnimationFrame(rafId)]. *)
Definition canceled (s : State) : gset positive :=
  match rafId s with
  | Z.pos h => frameCallbacks s ∖ {[h]}
  | _ => frameCallbacks s
  end.

Lemma revealAllPending_eq s :
  revealAllPending s =
  mkState (store s) (pluginName s) 0 [] ∅ false (isStopped s) (observer s)
    (startDelayTimer s) (pollTimer s) (appMount s) (activeListener s)
    (revealClasses (elements (pendingSet s)) (classes s))
    (canceled s) (rafCounter s) (ticks s).
Proof.
  unfold revealAllPending, canceled. rewrite setFlushing_eq, revealEach_eq.
  destruct (bool_decide_reflect (rafId s ≠ 0)) as [Hr|Hr]; simpl.
  - unfold cancelAnimationFrame. destruct (rafId s); done.
  - assert (rafId s = 0) as E by (destruct (decide (rafId s = 0)); tauto).
    destruct s; simpl in *. by subst.
Qed.

Lemma scheduleFlush_cases s :
  (scheduleFlush s = s ∧
   (active (store s) = false ∨ rafId s ≠ 0 ∨ pendingQueue s = [])) ∨
  (scheduleFlush s =
     mkState (store s) (pluginName s) (Z.pos (Pos.succ (rafCounter s)))
       (pendingQueue s) (pendingSet s) true (isStopped s) (observer s)
       (startDelayTimer s) (pollTimer s) (appMount s) (activeListener s)
       (classes s) ({[Pos.succ (rafCounter s)]} ∪ frameCallbacks s)
       (Pos.succ (rafCounter s)) (ticks s) ∧
   active (store s) = true ∧ rafId s = 0 ∧ pendingQueue s ≠ []).
Proof.
  unfold scheduleFlush. destruct (active (store s)) eqn:Ha; simpl; [|auto].
  destruct (bool_decide_reflect (rafId s ≠ 0)) as [Hr|Hr]; simpl; [auto|].
  destruct (bool_decide_reflect (length (pendingQueue s) = 0%nat)) as [Hq|Hq];
    simpl.
  - left. split; [done|]. right; right. by apply nil_length_inv.
  - right. rewrite setFlushing_eq. split; [done|]. split; [done|].
    split; [destruct (decide (rafId s = 0)); tauto|].
    intros E. by rewrite E in Hq.
Qed.

(** ** The store invariant is kept by every operation *)

(** Two states with the same queue, set and class lists. *)
Definition sameStore (s s' : State) : Prop :=
  pendingQueue s' = pendingQueue s ∧ pendingSet s' = pendingSet s ∧
  classes s' = classes s.

Lemma StoreInv_sameStore s s' : sameStore s s' → StoreInv s → StoreInv s'.
Proof.
  intros (Hq & Hs & Hc) [H1 H2 H3]. split.
  - by rewrite Hq, Hs.
  - by rewrite Hq.
  - intros el. unfold hidden. rewrite Hc, Hs. apply H3.
Qed.

Lemma sameStore_refl s : sameStore s s.
Proof. done. Qed.

Lemma sameStore_trans s1 s2 s3 :
  sameStore s1 s2 → sameStore s2 s3 → sameStore s1 s3.
Proof. unfold sameStore. intros (?&?&?) (?&?&?). repeat split; congruence. Qed.

Lemma sameStore_scheduleFlush s : sameStore s (scheduleFlush s).
Proof.
  destruct (scheduleFlush_cases s) as [[-> _]|[-> _]]; done.
Qed.

Lemma sameStore_setFlushing next s : sameStore s (setFlushing next s).
Proof. by rewrite setFlushing_eq. Qed.

Lemma enqueueElement_present element s :
  element ∈ pendingSet s → enqueueElement element s = s.
Proof. intros H. unfold enqueueElement. by rewrite bool_decide_eq_true_2. Qed.

Lemma enqueueElement_fresh element s :
  element ∉ pendingSet s →
  enqueueElement element s =
  set_pendingQueue (pendingQueue s ++ [element])
    (set_pendingSet ({[element]} ∪ pendingSet s)
       (set_classes (classList_add PENDING_CLASS element (classes s)) s)).
Proof. intros H. unfold enqueueElement. by rewrite bool_decide_eq_false_2. Qed.

Lemma StoreInv_enqueueElement element s :
  StoreInv s → StoreInv (enqueueElement element s).
Proof.
  intros [H1 H2 H3]. destruct (decide (element ∈ pendingSet s)) as [Hin|Hin].
  - rewrite enqueueElement_present by done. by split.
  - rewrite enqueueElement_fresh by done. split; simpl.
    + rewrite list_to_set_app_L, H1. set_solver.
    + apply NoDup_app. split; [done|]. split; [|apply NoDup_singleton].
      intros x Hx ->%list_elem_of_singleton. apply Hin. rewrite H1.
      by apply elem_of_list_to_set.
    + intros el. unfold hidden. simpl. rewrite classListOf_add.
      destruct (decide (element = el)) as [->|Hne].
      * rewrite token_add_elem. set_solver.
      * rewrite elem_of_union, elem_of_singleton. unfold hidden in H3.
        rewrite H3. naive_solver.
Qed.

Lemma drainNext_Some s el s' :
  drainNext s = Some (el, s') ↔
  ∃ rest, pendingQueue s = rest ++ [el] ∧
    s' = reveal el (set_pendingSet (pendingSet s ∖ {[el]})
                      (set_pendingQueue rest s)).
Proof.
  unfold drainNext. split.
  - destruct (pop (pendingQueue s)) as [[x rest]|] eqn:E; [|done].
    intros [= -> <-]. apply pop_Some in E. eauto.
  - intros (rest & Hq & ->). by rewrite Hq, pop_snoc.
Qed.

Lemma drainNext_None s : drainNext s = None ↔ pendingQueue s = [].
Proof.
  unfold drainNext. rewrite <- pop_None.
  destruct (pop (pendingQueue s)) as [[x rest]|]; naive_solver.
Qed.

Lemma StoreInv_drainNext s el s' :
  drainNext s = Some (el, s') → StoreInv s → StoreInv s'.
Proof.
  intros (rest & Hq & ->)%drainNext_Some [H1 H2 H3].
  rewrite Hq in H1, H2. apply NoDup_app in H2 as (Hnd & Hdisj & _).
  assert (el ∉ rest) as Hel.
  { intros Hin. apply (Hdisj _ Hin). by apply list_elem_of_singleton. }
  rewrite list_to_set_app_L in H1. split; simpl.
  - rewrite H1. apply set_eq. intros x.
    rewrite elem_of_difference, elem_of_union, !elem_of_list_to_set,
      elem_of_singleton, list_elem_of_singleton.
    split; [naive_solver|]. intros Hx. split; [auto|]. by intros ->.
  - done.
  - intros x. unfold hidden. simpl. rewrite classListOf_remove.
    rewrite elem_of_difference, elem_of_singleton. unfold hidden in H3.
    destruct (decide (el = x)) as [->|Hne].
    + rewrite token_remove_elem. naive_solver.
    + rewrite H3. naive_solver.
Qed.

Lemma StoreInv_revealAllPending s : StoreInv s → StoreInv (revealAllPending s).
Proof.
  intros [H1 H2 H3]. rewrite revealAllPending_eq. split; simpl.
  - done.
  - apply NoDup_nil_2.
  - intros el. unfold hidden. simpl. rewrite classListOf_revealClasses.
    unfold hidden in H3. rewrite H3, elem_of_elements. set_solver.
Qed.

Lemma StoreInv_scheduleFlush s : StoreInv s → StoreInv (scheduleFlush s).
Proof. apply StoreInv_sameStore, sameStore_scheduleFlush. Qed.

Lemma StoreInv_setFlushing next s : StoreInv s → StoreInv (setFlushing next s).
Proof. apply StoreInv_sameStore, sameStore_setFlushing. Qed.

Lemma StoreInv_flushLoop clock maxOps budget start fuel ops s :
  StoreInv s → StoreInv (flushLoop clock maxOps budget start fuel ops s).
Proof.
  revert ops s. induction fuel as [|fuel IH]; intros ops s Hs; simpl; [done|].
  destruct (drainNext s) as [[el s1]|] eqn:E; [|done].
  apply StoreInv_drainNext in E; [|done].
  destruct (bool_decide _); [done|].
  destruct (Qle_bool _ _).
  - revert E. by apply StoreInv_sameStore.
  - apply IH. revert E. by apply StoreInv_sameStore.
Qed.

Lemma StoreInv_flushQueue clock s : StoreInv s → StoreInv (flushQueue clock s).
Proof.
  intros Hs. unfold flushQueue.
  assert (StoreInv (set_rafId 0 s)) as H0 by (revert Hs; by apply StoreInv_sameStore).
  destruct (negb _); [by apply StoreInv_revealAllPending|].
  destruct (bool_decide _); [by apply StoreInv_setFlushing|].
  simpl.
  match goal with |- context [flushLoop ?c ?m ?b ?st ?f ?o ?x] =>
    assert (StoreInv (flushLoop c m b st f o x)) as H1
  end.
  { apply StoreInv_flushLoop. revert Hs. by apply StoreInv_sameStore. }
  destruct (bool_decide _);
    [by apply StoreInv_scheduleFlush|by apply StoreInv_setFlushing].
Qed.

Lemma StoreInv_enqueueWalk root children s :
  StoreInv s → StoreInv (enqueueWalk root children s).
Proof.
  unfold enqueueWalk. generalize (walk root children). intros l. revert s.
  induction l as [|e l IH]; intros s Hs; simpl; [done|].
  by apply IH, StoreInv_enqueueElement.
Qed.

Lemma StoreInv_enqueueTree n s : StoreInv s → StoreInv (enqueueTree n s).
Proof.
  intros Hs. unfold enqueueTree. destruct (negb _); [done|].
  destruct (node n) as [root children|]; [|done].
  destruct (closest _ _ _); [done|].
  pose proof (StoreInv_enqueueWalk root children s Hs).
  destruct (bool_decide _);
    [by apply StoreInv_revealAllPending|by apply StoreInv_scheduleFlush].
Qed.

Lemma StoreInv_handleMutations mutations s :
  StoreInv s → StoreInv (handleMutations mutations s).
Proof.
  intros Hs. unfold handleMutations. destruct (negb _); [done|].
  revert s Hs. induction mutations as [|m ms IH]; intros s Hs; simpl; [done|].
  apply IH. generalize (addedNodes m). intros l. revert s Hs.
  induction l as [|n l IHl]; intros s Hs; simpl; [done|].
  by apply IHl, StoreInv_enqueueTree.
Qed.

(** Two states that differ at most in queue, set, class lists and clock. *)
Definition sameControl (s s' : State) : Prop :=
  store s' = store s ∧ pluginName s' = pluginName s ∧ rafId s' = rafId s ∧
  isFlushing s' = isFlushing s ∧ isStopped s' = isStopped s ∧
  observer s' = observer s ∧ startDelayTimer s' = startDelayTimer s ∧
  pollTimer s' = pollTimer s ∧ appMount s' = appMount s ∧
  activeListener s' = activeListener s ∧
  frameCallbacks s' = frameCallbacks s ∧ rafCounter s' = rafCounter s.

Lemma sameControl_refl s : sameControl s s.
Proof. unfold sameControl. tauto. Qed.

Lemma sameControl_trans s1 s2 s3 :
  sameControl s1 s2 → sameControl s2 s3 → sameControl s1 s3.
Proof.
  unfold sameControl. intros H1 H2.
  destruct H1 as (?&?&?&?&?&?&?&?&?&?&?&?).
  destruct H2 as (?&?&?&?&?&?&?&?&?&?&?&?).
  repeat split; congruence.
Qed.

Lemma sameControl_enqueueElement element s :
  sameControl s (enqueueElement element s).
Proof.
  unfold enqueueElement. destruct (bool_decide _); [apply sameControl_refl|].
  unfold sameControl. simpl. tauto.
Qed.

Lemma sameControl_drainNext s el s' :
  drainNext s = Some (el, s') → sameControl s s'.
Proof.
  intros (rest & _ & ->)%drainNext_Some. unfold sameControl. simpl. tauto.
Qed.

Lemma sameControl_flushLoop clock maxOps budget start fuel ops s :
  sameControl s (flushLoop clock maxOps budget start fuel ops s).
Proof.
  revert ops s. induction fuel as [|fuel IH]; intros ops s; simpl;
    [apply sameControl_refl|].
  destruct (drainNext s) as [[el s1]|] eqn:E; [|apply sameControl_refl].
  apply sameControl_drainNext in E.
  destruct (bool_decide _); [done|].
  assert (sameControl s (set_ticks (S (ticks s1)) s1)) as H.
  { eapply sameControl_trans; [exact E|]. unfold sameControl. simpl. tauto. }
  destruct (Qle_bool _ _); [done|].
  eapply sameControl_trans; [exact H|apply IH].
Qed.

Lemma sameControl_enqueueWalk root children s :
  sameControl s (enqueueWalk root children s).
Proof.
  unfold enqueueWalk. generalize (walk root children). intros l. revert s.
  induction l as [|e l IH]; intros s; simpl; [apply sameControl_refl|].
  eapply sameControl_trans; [apply sameControl_enqueueElement|apply IH].
Qed.

(**** The queue only grows during a walk *)

Lemma enqueueElement_queue element s :
  ∃ l, pendingQueue (enqueueElement element s) = pendingQueue s ++ l.
Proof.
  unfold enqueueElement. destruct (bool_decide _).
  - exists []. by rewrite app_nil_r.
  - by exists [element].
Qed.

Lemma enqueueElement_pending element s :
  StoreInv s → element ∈ pendingQueue (enqueueElement element s).
Proof.
  intros Hs. destruct (decide (element ∈ pendingSet s)) as [Hin|Hin].
  - rewrite enqueueElement_present by done.
    rewrite (inv_set _ Hs) in Hin. by apply elem_of_list_to_set in Hin.
  - rewrite enqueueElement_fresh by done. simpl.
    apply elem_of_app. right. by apply list_elem_of_singleton.
Qed.

Lemma enqueueEach_queue (l : list Elem) s :
  ∃ l', pendingQueue (foldl (λ acc current, enqueueElement (ref current) acc) s l)
        = pendingQueue s ++ l'.
Proof.
  revert s. induction l as [|e l IH]; intros s; simpl.
  - exists []. by rewrite app_nil_r.
  - destruct (IH (enqueueElement (ref e) s)) as [l2 ->].
    destruct (enqueueElement_queue (ref e) s) as [l1 ->].
    exists (l1 ++ l2). by rewrite app_assoc.
Qed.

Lemma enqueueEach_pending (l : list Elem) s e :
  StoreInv s → e ∈ l →
  ref e ∈ pendingQueue (foldl (λ acc current, enqueueElement (ref current) acc) s l).
Proof.
  revert s. induction l as [|x l IH]; intros s Hs Hin; [by apply elem_of_nil in Hin|].
  simpl. apply elem_of_cons in Hin as [->|Hin].
  - destruct (enqueueEach_queue l (enqueueElement (ref x) s)) as [l' ->].
    apply elem_of_app. left. by apply enqueueElement_pending.
  - apply IH; [by apply StoreInv_enqueueElement|done].
Qed.

Lemma enqueueWalk_nonempty root children s :
  StoreInv s → pendingQueue (enqueueWalk root children s) ≠ [].
Proof.
  intros Hs E.
  assert (ref root ∈ pendingQueue (enqueueWalk root children s)) as Hin.
  { apply enqueueEach_pending; [done|]. unfold walk. apply elem_of_cons. auto. }
  rewrite E in Hin. by apply elem_of_nil in Hin.
Qed.

(** ** The session invariant *)

(** What holds inside [enqueueTree] and [flushQueue], between the walk or the
    drain loop and the decision to schedule a frame. *)
Record MidInv (s : State) : Prop := mkMidInv {
  mid_store : StoreInv s;
  mid_callbacks :
    frameCallbacks s = match rafId s with Z.pos h => {[h]} | _ => ∅ end;
  mid_rafId : 0 ≤ rafId s;
  mid_scheduled : rafId s ≠ 0 → pendingQueue s ≠ [] ∧ isFlushing s = true;
  mid_name : pluginName s ≠ "";
  mid_pending :
    pendingQueue s ≠ [] → active (store s) = true ∧ activeListener s = true;
  mid_listened :
    observer s = true ∨ pollTimer s = true ∨ startDelayTimer s = true →
    activeListener s = true
}.

Lemma SessionInv_MidInv s : SessionInv s → MidInv s.
Proof.
  intros [Hst [Hc Hr Hs Hf] Hn Hi Hu Hl]. split; try done.
  - intros H. split; [by apply Hs|]. rewrite Hf. by apply bool_decide_eq_true_2.
  - intros H. split.
    + destruct (active (store s)); [done|]. by destruct H; apply Hi.
    + destruct (activeListener s); [done|]. by destruct H; apply Hu.
Qed.

Lemma canceled_empty s :
  frameCallbacks s = match rafId s with Z.pos h => {[h]} | _ => ∅ end →
  canceled s = ∅.
Proof.
  unfold canceled. intros ->. destruct (rafId s); [done| |done].
  apply set_eq. intros x. rewrite elem_of_difference. set_solver.
Qed.

Lemma SessionInv_revealAll s :
  StoreInv s →
  frameCallbacks s = match rafId s with Z.pos h => {[h]} | _ => ∅ end →
  pluginName s ≠ "" →
  (observer s = true ∨ pollTimer s = true ∨ startDelayTimer s = true →
   activeListener s = true) →
  SessionInv (revealAllPending s).
Proof.
  intros Hst Hc Hn Hl.
  pose proof (StoreInv_revealAllPending s Hst) as Hst'.
  rewrite revealAllPending_eq in *. split; simpl; try done.
  split; simpl; try done. by apply canceled_empty.
Qed.

Lemma SessionInv_revealAllPending s : MidInv s → SessionInv (revealAllPending s).
Proof. intros [Hst Hc Hr Hs Hn Hp Hl]. by apply SessionInv_revealAll. Qed.

Lemma SessionInv_scheduleFlush s :
  MidInv s → pendingQueue s ≠ [] → SessionInv (scheduleFlush s).
Proof.
  intros [Hst Hc Hr Hs Hn Hp Hl] Hq.
  pose proof (StoreInv_scheduleFlush s Hst) as Hst'.
  destruct (Hp Hq) as [Ha Hal].
  destruct (scheduleFlush_cases s) as [[E H]|[E (_ & Hr0 & _)]];
    rewrite E in *; clear E.
  - destruct H as [H|[H|H]]; [congruence| |done].
    destruct (Hs H) as [_ Hf]. split; try done; try congruence.
    split; try done. rewrite Hf. symmetry. by apply bool_decide_eq_true_2.
  - split; simpl; try done; try congruence. split; simpl; try done.
    rewrite Hc, Hr0. set_solver.
Qed.

Lemma SessionInv_idle s :
  MidInv s → rafId s = 0 → pendingQueue s = [] →
  SessionInv (setFlushing false s).
Proof.
  intros [Hst Hc Hr Hs Hn Hp Hl] Hr0 Hq.
  pose proof (StoreInv_setFlushing false s Hst) as Hst'.
  rewrite setFlushing_eq in *. split; simpl; try done.
  split; simpl; try done.
  by rewrite Hr0.
Qed.

Lemma SessionInv_enqueueTree n s :
  SessionInv s → activeListener s = true → SessionInv (enqueueTree n s).
Proof.
  intros Hs Hal. unfold enqueueTree.
  destruct (active (store s)) eqn:Ha; simpl; [|done].
  destruct (node n) as [root children|]; [|done].
  destruct (closest _ _ _); [done|].
  pose proof (SessionInv_MidInv s Hs) as [Hst Hc Hr Hsch Hn Hp Hl].
  pose proof (sameControl_enqueueWalk root children s)
    as (E1&E2&E3&E4&E5&E6&E7&E8&E9&E10&E11&E12).
  pose proof (enqueueWalk_nonempty root children s Hst) as Hne.
  assert (MidInv (enqueueWalk root children s)) as Hmid.
  { split.
    - by apply StoreInv_enqueueWalk.
    - by rewrite E11, E3.
    - by rewrite E3.
    - rewrite E3, E4. intros H. split; [done|]. by apply Hsch.
    - by rewrite E2.
    - intros _. by rewrite E1, E10.
    - rewrite E6, E7, E8, E10. done. }
  destruct (bool_decide _).
  - by apply SessionInv_revealAllPending.
  - by apply SessionInv_scheduleFlush.
Qed.

Lemma enqueueTree_activeListener n s :
  activeListener (enqueueTree n s) = activeListener s.
Proof.
  unfold enqueueTree. destruct (negb _); [done|].
  destruct (node n) as [root children|]; [|done].
  destruct (closest _ _ _); [done|].
  pose proof (sameControl_enqueueWalk root children s)
    as (E1&E2&E3&E4&E5&E6&E7&E8&E9&E10&E11&E12).
  destruct (bool_decide _).
  - by rewrite revealAllPending_eq.
  - destruct (scheduleFlush_cases (enqueueWalk root children s)) as [[-> _]|[-> _]];
      done.
Qed.

Lemma SessionInv_handleMutations mutations s :
  SessionInv s → activeListener s = true →
  SessionInv (handleMutations mutations s).
Proof.
  intros Hs Hal. unfold handleMutations. destruct (negb _); [done|].
  revert s Hs Hal.
  induction mutations as [|m ms IH]; intros s Hs Hal; simpl; [done|].
  assert (∀ l s, SessionInv s → activeListener s = true →
            SessionInv (foldl (λ acc' n, enqueueTree n acc') s l) ∧
            activeListener (foldl (λ acc' n, enqueueTree n acc') s l) = true)
    as Hinner.
  { clear. induction l as [|n l IHl]; intros s Hs Hal; simpl; [done|].
    apply IHl; [by apply SessionInv_enqueueTree|].
    by rewrite enqueueTree_activeListener. }
  destruct (Hinner (addedNodes m) s Hs Hal) as [H1 H2]. by apply IH.
Qed.

Lemma SessionInv_flushQueue clock handle s :
  SessionInv s → handle ∈ frameCallbacks s →
  SessionInv (flushQueue clock
                (set_frameCallbacks (frameCallbacks s ∖ {[handle]}) s)).
Proof.
  intros Hs Hin.
  pose proof (SessionInv_MidInv s Hs) as [Hst Hc Hr Hsch Hn Hp Hl].
  assert (rafId s = Z.pos handle) as Hh.
  { rewrite Hc in Hin. destruct (rafId s); [set_solver| |set_solver].
    apply elem_of_singleton in Hin. by subst. }
  assert (frameCallbacks s ∖ {[handle]} = ∅) as Hempty.
  { rewrite Hc, Hh. set_solver. }
  rewrite Hempty.
  set (s0 := set_rafId 0 (set_frameCallbacks ∅ s)).
  assert (MidInv s0) as Hmid0.
  { split; simpl; try done. revert Hst. by apply StoreInv_sameStore. }
  unfold flushQueue. fold s0.
  destruct (negb (active (store s0))); [by apply SessionInv_revealAllPending|].
  destruct (bool_decide_reflect (length (pendingQueue s0) = 0%nat)) as [Hq|Hq].
  { apply SessionInv_idle; [done|done|]. by apply nil_length_inv. }
  simpl.
  match goal with |- context [flushLoop ?c ?m ?b ?st ?f ?o ?x] =>
    set (s1 := x); set (s2 := flushLoop c m b st f o s1)
  end.
  assert (StoreInv s2) as Hst2.
  { apply StoreInv_flushLoop. revert Hst. by apply StoreInv_sameStore. }
  pose proof (sameControl_flushLoop clock (maxOpsPerFrame (store s))
                (frameBudgetMs (store s)) (clock (ticks s))
                (length (pendingQueue s)) 0 s1)
    as (E1&E2&E3&E4&E5&E6&E7&E8&E9&E10&E11&E12).
  fold s2 in E1, E2, E3, E4, E5, E6, E7, E8, E9, E10, E11, E12.
  simpl in E1, E2, E3, E4, E5, E6, E7, E8, E9, E10, E11, E12.
  assert (pendingQueue s ≠ []) as Hqs by (intros E; apply Hq; simpl; by rewrite E).
  destruct (Hp Hqs) as [Ha Hal].
  assert (MidInv s2) as Hmid2.
  { split; try done.
    - by rewrite E11, E3.
    - by rewrite E3.
    - by rewrite E2.
    - intros _. by rewrite E1, E10.
    - rewrite E6, E7, E8, E10. done. }
  destruct (bool_decide_reflect (0 < length (pendingQueue s2))%nat) as [Hq2|Hq2].
  - apply SessionInv_scheduleFlush; [done|]. intros E. rewrite E in Hq2.
    simpl in Hq2. lia.
  - apply SessionInv_idle; [done|done|]. apply nil_length_inv. lia.
Qed.

(** A step that only moves life-cycle flags keeps the session invariant as
    long as the observer and the timers stay under a registered listener. *)
Lemma SessionInv_flags s s' :
  sameStore s s' → store s' = store s → pluginName s' = pluginName s →
  rafId s' = rafId s → isFlushing s' = isFlushing s →
  frameCallbacks s' = frameCallbacks s →
  (activeListener s' = true ∨
   (activeListener s' = activeListener s ∧
    (observer s' = true ∨ pollTimer s' = true ∨ startDelayTimer s' = true →
     activeListener s = true))) →
  SessionInv s → SessionInv s'.
Proof.
  intros Hsame E1 E2 E3 E4 E5 Hl [Hst [Hc Hr Hs Hf] Hn Hi Hu Hlis].
  pose proof Hsame as (Eq & _ & _). split.
  - by apply (StoreInv_sameStore s).
  - split; rewrite ?E5, ?E3, ?E4, ?Eq; done.
  - by rewrite E2.
  - by rewrite E1, Eq.
  - rewrite Eq. destruct Hl as [->|[-> _]]; [done|done].
  - destruct Hl as [->|[-> H]]; [done|done].
Qed.

Lemma SessionInv_start ready s : SessionInv s → SessionInv (start ready s).
Proof.
  intros Hs. pose proof (inv_name s Hs) as Hn.
  apply (SessionInv_flags s); try done;
    unfold start, registerSettingsListeners, waitForAppMount, isAppMountReady,
      onAppMountReady, scheduleThrottleStart, sameStore; simpl;
    rewrite bool_decide_eq_false_2 by done; simpl;
    destruct ready; simpl; try done; destruct (pollTimer s); simpl; auto.
Qed.

Lemma SessionInv_pollElapsed ready s :
  pollTimer s = true → SessionInv s → SessionInv (pollElapsed ready s).
Proof.
  intros Hp Hs.
  assert (activeListener s = true) as Hal by (apply (inv_listened s Hs); auto).
  apply (SessionInv_flags s); try done;
    unfold pollElapsed, isAppMountReady, onAppMountReady, scheduleThrottleStart,
      sameStore;
    destruct (isStopped s) eqn:E; simpl; try done; auto;
    destruct ready; simpl; rewrite ?E; simpl; auto.
Qed.

Lemma SessionInv_startDelayElapsed s :
  startDelayTimer s = true → SessionInv s → SessionInv (startDelayElapsed s).
Proof.
  intros Hp Hs.
  assert (activeListener s = true) as Hal by (apply (inv_listened s Hs); auto).
  apply (SessionInv_flags s); try done;
    unfold startDelayElapsed, startObserver, sameStore; simpl;
    destruct (isStopped s); simpl; auto;
    destruct (negb (appMount s) || observer s); simpl; auto.
Qed.

Lemma stop_eq s :
  pluginName s ≠ "" →
  stop s =
  mkState (store s) (pluginName s) 0 [] ∅ false true false false false false
    false (revealClasses (elements (pendingSet s)) (classes s)) (canceled s)
    (rafCounter s) (ticks s).
Proof.
  intros Hn. unfold stop, unregisterSettingsListeners, stopObserver. simpl.
  rewrite bool_decide_eq_false_2 by done. by rewrite revealAllPending_eq.
Qed.

Lemma StoreInv_stop s : StoreInv s → StoreInv (stop s).
Proof.
  intros Hs. unfold stop.
  assert (StoreInv (revealAllPending
            (stopObserver (unregisterSettingsListeners (set_isStopped true s)))))
    as H.
  { apply StoreInv_revealAllPending. revert Hs. apply StoreInv_sameStore.
    unfold stopObserver, unregisterSettingsListeners. simpl.
    by destruct (bool_decide _). }
  revert H.
  generalize (revealAllPending
                (stopObserver (unregisterSettingsListeners (set_isStopped true s)))).
  intros s1. apply StoreInv_sameStore. unfold sameStore. simpl. tauto.
Qed.

Lemma SessionInv_stop s : SessionInv s → SessionInv (stop s).
Proof.
  intros Hs. pose proof (inv_name s Hs) as Hn.
  pose proof (StoreInv_stop s (inv_store s Hs)) as Hst.
  pose proof (inv_callbacks s (inv_frame s Hs)) as Hc.
  rewrite stop_eq in * by done. split; simpl; try done.
  - split; simpl; try done. by apply canceled_empty.
  - intros [H|[H|H]]; done.
Qed.

Lemma SessionInv_settings cfg s :
  active cfg = active (store s) → SessionInv s → SessionInv (set_store cfg s).
Proof.
  intros Ha [Hst Hf Hn Hi Hu Hl]. split; simpl; try done.
  - revert Hst. by apply StoreInv_sameStore.
  - by destruct Hf.
  - by rewrite Ha.
Qed.

Lemma SessionInv_setActive value s :
  SessionInv s → SessionInv (step (EvSetActive value) s).
Proof.
  intros Hs. pose proof (SessionInv_MidInv s Hs) as [Hst Hc Hr Hsch Hn Hp Hl].
  pose proof Hs as [_ [_ _ Hsch' Hfl] _ Hi Hu _].
  simpl. destruct (activeListener s) eqn:Hal.
  - unfold onActiveChanged. destruct value; simpl.
    + set (s1 := set_store (set_active true (store s)) s).
      destruct (decide (pendingQueue s = [])) as [Hq|Hq].
      * assert (SessionInv s1) as H1.
        { split; simpl; try done.
          revert Hst. by apply StoreInv_sameStore. }
        destruct (scheduleFlush_cases s1) as [[-> _]|[_ (_ & _ & H)]]; done.
      * apply SessionInv_scheduleFlush; [|done].
        split; simpl; try done. revert Hst. by apply StoreInv_sameStore.
    + apply SessionInv_revealAll; simpl; try done.
      revert Hst. by apply StoreInv_sameStore.
  - assert (pendingQueue s = []) as Hq by (by apply Hu).
    split; simpl; try done.
    + revert Hst. by apply StoreInv_sameStore.
    + intros H. rewrite Hal. by apply Hl.
Qed.

Lemma SessionInv_step ev s : SessionInv s → SessionInv (step ev s).
Proof.
  intros Hs. destruct ev as [ready|ready| | |ms|h clock|v|v|v].
  - by apply SessionInv_start.
  - simpl. destruct (pollTimer s) eqn:E; [by apply SessionInv_pollElapsed|done].
  - simpl. destruct (startDelayTimer s) eqn:E;
      [by apply SessionInv_startDelayElapsed|done].
  - by apply SessionInv_stop.
  - simpl. destruct (observer s) eqn:E; [|done].
    apply SessionInv_handleMutations; [done|]. apply (inv_listened s Hs). auto.
  - simpl. destruct (bool_decide_reflect (h ∈ frameCallbacks s)); [|done].
    by apply SessionInv_flushQueue.
  - by apply SessionInv_setActive.
  - by apply SessionInv_settings.
  - by apply SessionInv_settings.
Qed.

Lemma hidden_initial cfg name dom el :
  (∀ el, PENDING_CLASS ∉ classListOf dom el) →
  ¬ hidden (initialState cfg name dom) el.
Proof. intros H. apply H. Qed.

Lemma StoreInv_initial cfg name dom :
  (∀ el, PENDING_CLASS ∉ classListOf dom el) →
  StoreInv (initialState cfg name dom).
Proof.
  intros H. split; simpl; [done|apply NoDup_nil_2|].
  intros el. split; [intros Hh; by destruct (H el)|set_solver].
Qed.

Lemma SessionInv_reachable s : reachable s → SessionInv s.
Proof.
  induction 1 as [cfg name dom Hn Hd|ev s _ IH]; [|by apply SessionInv_step].
  split; simpl; try done.
  - by apply StoreInv_initial.
  - intros [H|[H|H]]; done.
Qed.

Lemma StoreInv_step ev s : StoreInv s → StoreInv (step ev s).
Proof.
  intros Hs. destruct ev as [ready|ready| | |ms|h clock|v|v|v]; simpl.
  - revert Hs. apply StoreInv_sameStore.
    unfold start, registerSettingsListeners, waitForAppMount, isAppMountReady,
      onAppMountReady, scheduleThrottleStart, sameStore; simpl.
    destruct (bool_decide _); simpl; destruct ready; simpl; try done;
      destruct (pollTimer s); done.
  - destruct (pollTimer s); [|done]. revert Hs. apply StoreInv_sameStore.
    unfold pollElapsed, isAppMountReady, onAppMountReady, scheduleThrottleStart,
      sameStore.
    destruct (isStopped s) eqn:E; simpl; try done.
    destruct ready; simpl; rewrite ?E; done.
  - destruct (startDelayTimer s); [|done]. revert Hs. apply StoreInv_sameStore.
    unfold startDelayElapsed, startObserver, sameStore; simpl.
    destruct (isStopped s); simpl; try done.
    destruct (negb (appMount s) || observer s); done.
  - by apply StoreInv_stop.
  - destruct (observer s); [by apply StoreInv_handleMutations|done].
  - destruct (bool_decide _); [|done]. apply StoreInv_flushQueue.
    revert Hs. by apply StoreInv_sameStore.
  - assert (StoreInv (set_store (set_active v (store s)) s)) as H
      by (revert Hs; by apply StoreInv_sameStore).
    destruct (activeListener s); [|done]. unfold onActiveChanged.
    destruct (negb v);
      [by apply StoreInv_revealAllPending|by apply StoreInv_scheduleFlush].
  - revert Hs. by apply StoreInv_sameStore.
  - revert Hs. by apply StoreInv_sameStore.
Qed.

Lemma StoreInv_applyOp op s : StoreInv s → StoreInv (applyOp op s).
Proof.
  intros Hs. destruct op; simpl.
  - by apply StoreInv_enqueueElement.
  - destruct (drainNext s) as [[el s']|] eqn:E; [|done].
    by apply (StoreInv_drainNext s el).
  - by apply StoreInv_revealAllPending.
  - by apply StoreInv_scheduleFlush.
  - by apply StoreInv_flushQueue.
  - by apply StoreInv_enqueueTree.
  - by apply StoreInv_handleMutations.
  - by apply StoreInv_stop.
  - by apply StoreInv_step.
Qed.

Lemma StoreInv_reachable_by_ops s : reachable_by_ops s → StoreInv s.
Proof.
  induction 1 as [cfg name dom Hd|op s _ IH];
    [by apply StoreInv_initial|by apply StoreInv_applyOp].
Qed.

Lemma reachable_by_ops_reachable s : reachable s → reachable_by_ops s.
Proof.
  induction 1 as [cfg name dom Hn Hd|ev s _ IH]; [by constructor|].
  apply (by_ops_apply (OpEvent ev)). exact IH.
Qed.

(** ** The drain loop *)

(** The fuel never cuts the loop short: each turn pops one entry. *)
Lemma flushLoop_fuel clock maxOps budget start fuel ops s :
  (length (pendingQueue s) ≤ fuel)%nat →
  flushLoop clock maxOps budget start fuel ops s =
  flushLoop clock maxOps budget start (length (pendingQueue s)) ops s.
Proof.
  revert ops s. induction fuel as [|fuel IH]; intros ops s Hlen.
  - assert (length (pendingQueue s) = 0%nat) as -> by lia. done.
  - destruct (drainNext s) as [[el s1]|] eqn:E.
    + pose proof E as (rest & Hq & Hs1)%drainNext_Some.
      rewrite Hq, length_app. simpl. rewrite Nat.add_1_r. simpl. rewrite E.
      destruct (bool_decide _); [done|]. destruct (Qle_bool _ _); [done|].
      assert (length rest ≤ fuel)%nat as Hr
        by (rewrite Hq, length_app in Hlen; simpl in Hlen; lia).
      rewrite IH by (subst s1; simpl; exact Hr).
      subst s1. done.
    + simpl. rewrite E. apply drainNext_None in E. rewrite E. done.
Qed.

(** What one run of the loop does, in terms of the entries [revealed] it
    took off the end of the queue: it stops at the first turn after which
    the queue is empty, the count has reached [maxOps], or the clock has
    reached the budget; the clock is read after a turn only when the count
    check let the loop go on. *)
Lemma flushLoop_spec clock maxOps budget start fuel ops s :
  (length (pendingQueue s) ≤ fuel)%nat →
  ∃ revealed : list Ref,
    let s' := flushLoop clock maxOps budget start fuel ops s in
    let r := length revealed in
    pendingQueue s = pendingQueue s' ++ revealed ∧
    pendingSet s' = pendingSet s ∖ list_to_set revealed ∧
    classes s' = revealClasses (rev revealed) (classes s) ∧
    (pendingQueue s ≠ [] → revealed ≠ []) ∧
    (revealed = [] ∨ pendingQueue s' = [] ∨ maxOps ≤ ops + Z.of_nat r ∨
     Qle_bool (inject_Z budget) (clock (ticks s + r - 1)%nat - start) = true) ∧
    (∀ k, (1 ≤ k < r)%nat →
       ops + Z.of_nat k < maxOps ∧
       Qle_bool (inject_Z budget) (clock (ticks s + k - 1)%nat - start) = false) ∧
    ticks s' =
      (ticks s + (if bool_decide (maxOps ≤ ops + Z.of_nat r)%Z then pred r else r))%nat.
Proof.
  revert ops s. induction fuel as [|fuel IH]; intros ops s Hlen.
  - exists []. simpl.
    assert (pendingQueue s = []) as Hq by (apply nil_length_inv; lia).
    rewrite Hq.
    split; [done|]. split; [set_solver|]. split; [done|]. split; [done|].
    split; [by left|]. split; [intros k Hk; lia|].
    destruct (bool_decide _); simpl; lia.
  - simpl. destruct (drainNext s) as [[el s1]|] eqn:E.
    2:{ apply drainNext_None in E. exists []. simpl. rewrite E.
        split; [done|]. split; [set_solver|]. split; [done|]. split; [done|].
        split; [by left|]. split; [intros k Hk; lia|].
        destruct (bool_decide _); simpl; lia. }
    pose proof E as (rest & Hq & Hs1)%drainNext_Some.
    assert (pendingQueue s1 = rest ∧ pendingSet s1 = pendingSet s ∖ {[el]} ∧
            classes s1 = classList_remove PENDING_CLASS el (classes s) ∧
            ticks s1 = ticks s) as (Q1 & Q2 & Q3 & Q4) by (by subst s1).
    destruct (bool_decide_reflect (maxOps ≤ ops + 1)) as [Hm|Hm].
    { exists [el]. simpl. rewrite Q1, Q2, Q3, Q4.
      split; [done|]. split; [set_solver|]. split; [done|]. split; [done|].
      split; [right; right; left; lia|]. split; [intros k Hk; lia|].
      rewrite bool_decide_eq_true_2 by lia. simpl. lia. }
    simpl.
    destruct (Qle_bool (inject_Z budget) (clock (ticks s1) - start)) eqn:Ht.
    { exists [el]. simpl. rewrite Q1, Q2, Q3.
      split; [done|]. split; [set_solver|]. split; [done|]. split; [done|].
      split; [|split; [intros k Hk; lia|]].
      - right; right; right. rewrite <- Ht, Q4. f_equal. f_equal. f_equal. lia.
      - rewrite bool_decide_eq_false_2 by lia. rewrite Q4. lia. }
    set (s2 := set_ticks (S (ticks s1)) s1).
    assert (length (pendingQueue s2) ≤ fuel)%nat as Hlen2.
    { simpl. rewrite Q1. rewrite Hq, length_app in Hlen. simpl in Hlen. lia. }
    destruct (IH (ops + 1) s2 Hlen2) as (rev' & H1 & H2 & H3 & H4 & H5 & H6 & H7).
    simpl in H1, H2, H3, H4, H5, H6, H7.
    rewrite Q1 in H1, H4. rewrite Q2 in H2. rewrite Q3 in H3. rewrite Q4 in H5, H6, H7.
    exists (rev' ++ [el]).
    cbv zeta. rewrite length_app. simpl length.
    split; [by rewrite Hq, H1, app_assoc|].
    split; [rewrite H2, list_to_set_app_L; set_solver|].
    split; [by rewrite H3, rev_unit|].
    split; [by destruct rev'|].
    split; [|split].
    + destruct (decide (rev' = [])) as [->|Hne].
      * right; left. rewrite app_nil_r in H1. rewrite <- H1.
        destruct rest; [done|]. by destruct H4.
      * destruct H5 as [H5|[H5|[H5|H5]]]; [done|auto| |].
        -- right; right; left. lia.
        -- right; right; right. rewrite <- H5. f_equal. f_equal. f_equal.
           destruct rev'; [done|]. simpl. lia.
    + intros k Hk. destruct (decide (k = 1%nat)) as [->|Hk1].
      * split; [lia|]. rewrite <- Ht, Q4. f_equal. f_equal. f_equal. lia.
      * destruct (H6 (k - 1)%nat) as [G1 G2]; [lia|]. split; [lia|].
        rewrite <- G2. f_equal. f_equal. f_equal. lia.
    + rewrite H7.
      assert (ops + 1 + Z.of_nat (length rev') =
              ops + Z.of_nat (length rev' + 1)) as -> by lia.
      destruct (bool_decide_reflect (maxOps ≤ ops + Z.of_nat (length rev' + 1)))
        as [Hc|Hc]; [|lia].
      destruct rev' as [|x rev']; [simpl in Hc; lia|]. simpl. lia.
Qed.

(** Time elapsed at the [k]-th reading that follows the start reading of a
    flush that begins in state [s]. *)
Definition elapsed (clock : nat → Q) (s : State) (k : nat) : Q :=
  (clock (ticks s + k)%nat - clock (ticks s))%Q.

(** One flush of an active session with a backlog. *)
Lemma flushQueue_spec clock s :
  active (store s) = true → pendingQueue s ≠ [] →
  ∃ revealed : list Ref,
    let s' := flushQueue clock s in
    let r := length revealed in
    let maxOps := maxOpsPerFrame (store s) in
    let budget := inject_Z (frameBudgetMs (store s)) in
    revealed ≠ [] ∧
    pendingQueue s = pendingQueue s' ++ revealed ∧
    pendingSet s' = pendingSet s ∖ list_to_set revealed ∧
    classes s' = revealClasses (rev revealed) (classes s) ∧
    (pendingQueue s' = [] ∨ maxOps ≤ Z.of_nat r ∨
     Qle_bool budget (elapsed clock s r) = true) ∧
    (∀ k, (1 ≤ k < r)%nat →
       Z.of_nat k < maxOps ∧ Qle_bool budget (elapsed clock s k) = false) ∧
    ticks s' =
      (ticks s + 1 + (if bool_decide (maxOps ≤ Z.of_nat r)%Z then pred r else r))%nat ∧
    store s' = store s ∧
    (pendingQueue s' = [] →
       rafId s' = 0 ∧ isFlushing s' = false ∧
       frameCallbacks s' = frameCallbacks s) ∧
    (pendingQueue s' ≠ [] →
       rafId s' = Z.pos (Pos.succ (rafCounter s)) ∧ isFlushing s' = true ∧
       frameCallbacks s' = {[Pos.succ (rafCounter s)]} ∪ frameCallbacks s).
Proof.
  intros Ha Hq. unfold flushQueue. simpl. rewrite Ha. simpl.
  rewrite bool_decide_eq_false_2
    by (intros E; apply Hq; by apply nil_length_inv).
  set (s1 := set_ticks (S (ticks s)) (set_rafId 0 s)).
  destruct (flushLoop_spec clock (maxOpsPerFrame (store s))
              (frameBudgetMs (store s)) (clock (ticks s))
              (length (pendingQueue s)) 0 s1 (Nat.le_refl _))
    as (revealed & H1 & H2 & H3 & H4 & H5 & H6 & H7).
  pose proof (sameControl_flushLoop clock (maxOpsPerFrame (store s))
                (frameBudgetMs (store s)) (clock (ticks s))
                (length (pendingQueue s)) 0 s1)
    as (E1&E2&E3&E4&E5&E6&E7&E8&E9&E10&E11&E12).
  set (s2 := flushLoop clock (maxOpsPerFrame (store s))
               (frameBudgetMs (store s)) (clock (ticks s))
               (length (pendingQueue s)) 0 s1) in *.
  simpl in H1, H2, H3, H4, H5, H6, H7, E1, E3, E11, E12.
  exists revealed. cbv zeta.
  assert (revealed ≠ []) as Hne by auto.
  assert (∀ k, (ticks s + k)%nat = (S (ticks s) + k - 1)%nat ∨ k = 0%nat) as Hidx
    by (intros k; lia).
  assert (∀ t, sameStore s2 t → ticks t = ticks s2 → store t = store s2 →
            (pendingQueue t = [] →
               rafId t = 0 ∧ isFlushing t = false ∧
               frameCallbacks t = frameCallbacks s) →
            (pendingQueue t ≠ [] →
               rafId t = Z.pos (Pos.succ (rafCounter s)) ∧ isFlushing t = true ∧
               frameCallbacks t = {[Pos.succ (rafCounter s)]} ∪ frameCallbacks s) →
            revealed ≠ [] ∧
            pendingQueue s = pendingQueue t ++ revealed ∧
            pendingSet t = pendingSet s ∖ list_to_set revealed ∧
            classes t = revealClasses (rev revealed) (classes s) ∧
            (pendingQueue t = [] ∨
             maxOpsPerFrame (store s) ≤ Z.of_nat (length revealed) ∨
             Qle_bool (inject_Z (frameBudgetMs (store s)))
               (elapsed clock s (length revealed)) = true) ∧
            (∀ k, (1 ≤ k < length revealed)%nat →
               Z.of_nat k < maxOpsPerFrame (store s) ∧
               Qle_bool (inject_Z (frameBudgetMs (store s)))
                 (elapsed clock s k) = false) ∧
            ticks t =
              (ticks s + 1 +
               (if bool_decide (maxOpsPerFrame (store s) ≤ Z.of_nat (length revealed))%Z
                then pred (length revealed) else length revealed))%nat ∧
            store t = store s ∧
            (pendingQueue t = [] →
               rafId t = 0 ∧ isFlushing t = false ∧
               frameCallbacks t = frameCallbacks s) ∧
            (pendingQueue t ≠ [] →
               rafId t = Z.pos (Pos.succ (rafCounter s)) ∧ isFlushing t = true ∧
               frameCallbacks t = {[Pos.succ (rafCounter s)]} ∪ frameCallbacks s))
    as Hfin.
  { intros t (Tq & Ts & Tc) Tt Tst Tidle Tsched. rewrite Tq, Ts, Tc, Tt, Tst.
    split; [done|]. split; [done|]. split; [done|]. split; [done|].
    split; [|split; [|split; [|split; [|split]]]].
    - destruct H5 as [H5|[H5|[H5|H5]]]; [done|auto|auto|].
      right; right. rewrite <- H5. unfold elapsed. f_equal. f_equal. f_equal.
      destruct revealed; [done|]. simpl. lia.
    - intros k Hk. destruct (H6 k Hk) as [G1 G2]. split; [lia|].
      rewrite <- G2. unfold elapsed. f_equal. f_equal. f_equal. lia.
    - rewrite H7. simpl. destruct (bool_decide _); lia.
    - exact E1.
    - intros E. apply Tidle. by rewrite Tq.
    - intros E. apply Tsched. by rewrite Tq. }
  destruct (bool_decide_reflect (0 < length (pendingQueue s2))%nat) as [Hlen|Hlen].
  - assert (pendingQueue s2 ≠ []) as Hq2 by (intros E; rewrite E in Hlen; simpl in Hlen; lia).
    destruct (scheduleFlush_cases s2) as [[_ [H|[H|H]]]|[E _]];
      [congruence|congruence|done|].
    rewrite E. apply Hfin; simpl; try done.
    intros _. by rewrite E11, E12.
  - assert (pendingQueue s2 = []) as Hq2 by (apply nil_length_inv; lia).
    rewrite setFlushing_eq. apply Hfin; simpl; try done.
Qed.

(** ** Hidden elements and the store *)

Lemma hiddenNodes_pendingSet s : StoreInv s → hiddenNodes s = pendingSet s.
Proof.
  intros Hs. apply set_eq. intros el.
  rewrite elem_of_hiddenNodes. apply (inv_hidden s Hs).
Qed.

Lemma size_pendingSet s : StoreInv s → size (pendingSet s) = length (pendingQueue s).
Proof.
  intros [H1 H2 _]. rewrite H1. by apply size_list_to_set.
Qed.

Lemma hidden_revealClasses els s s' el :
  classes s' = revealClasses els (classes s) →
  hidden s' el ↔ hidden s el ∧ el ∉ els.
Proof. unfold hidden. intros ->. apply classListOf_revealClasses. Qed.

Lemma reachable_run evs s : reachable s → reachable (run evs s).
Proof.
  revert s. induction evs as [|ev evs IH]; intros s Hs; [done|].
  apply IH. by constructor.
Qed.

(** The settings the plugin ships with. *)
Definition defaultSettings : Settings := mkSettings true 1200 6 200 true.

(** A childless [<div>] with no id and no attribute, freshly inserted under
    ancestors that carry no attribute. *)
Definition div (r : Ref) : Inserted :=
  mkInserted [] (Element (mkElem r "DIV" "" []) []).

(** A session that has started and whose observer is connected. *)
Definition observing (cfg : Settings) : State :=
  run [EvStart true; EvStartDelay] (initialState cfg "CustomRender" ∅).

Lemma reachable_observing cfg : reachable (observing cfg).
Proof.
  apply reachable_run. constructor; [done|].
  intros el. unfold classListOf. rewrite lookup_empty. apply not_elem_of_nil.
Qed.

(** * The claims *)

(** C9. The Reveal Action is idempotent: applying it twice leaves the same
    state as applying it once, and applying it to an element that does not
    carry the hidden marker changes nothing. *)
Theorem reveal_idempotent (el : Ref) (s : State) :
  reveal el (reveal el s) = reveal el s ∧
  (¬ hidden s el → reveal el s = s).
Proof.
  split.
  - unfold reveal. simpl. by rewrite classList_remove_idemp.
  - intros H. unfold reveal. rewrite classList_remove_absent by exact H.
    by destruct s.
Qed.

(** C1. At every point reached by any sequence of enqueues, drain turns,
    flushes, mass reveals, intake calls and teardowns, an element carries
    the hidden marker if and only if it is in the pending set, and if and
    only if it is in the pending queue. *)
Theorem hidden_iff_pending (s : State) (el : Ref) :
  reachable_by_ops s →
  (hidden s el ↔ el ∈ pendingSet s) ∧ (hidden s el ↔ el ∈ pendingQueue s).
Proof.
  intros Hs%StoreInv_reachable_by_ops. destruct Hs as [H1 H2 H3].
  split; [apply H3|]. rewrite H3, H1. apply elem_of_list_to_set.
Qed.

Lemma hidden_iff_pending_witness :
  let s := applyOp OpDrainNext
             (applyOp (OpEnqueueElement 2)
                (applyOp (OpEnqueueElement 1)
                   (initialState defaultSettings "CustomRender" ∅))) in
  (hidden s 1 ↔ 1%positive ∈ pendingSet s) ∧
  (hidden s 2 ↔ 2%positive ∈ pendingQueue s).
Proof.
  cbv zeta. split.
  - apply hidden_iff_pending. do 3 apply by_ops_apply. apply by_ops_init.
    intros el. unfold classListOf. rewrite lookup_empty. apply not_elem_of_nil.
  - apply hidden_iff_pending. do 3 apply by_ops_apply. apply by_ops_init.
    intros el. unfold classListOf. rewrite lookup_empty. apply not_elem_of_nil.
Defined.

(** C5. After any sequence of enqueue, drain and clear operations (and of
    the functions built from them) the pending set and the pending queue
    have the same size, no reference is twice in the queue, and enqueueing a
    reference that is already pending changes nothing. *)
Theorem set_and_queue_in_step (s : State) :
  reachable_by_ops s →
  size (pendingSet s) = length (pendingQueue s) ∧
  NoDup (pendingQueue s) ∧
  (∀ el, el ∈ pendingSet s ↔ el ∈ pendingQueue s) ∧
  (∀ el, el ∈ pendingQueue s → enqueueElement el s = s).
Proof.
  intros Hs%StoreInv_reachable_by_ops.
  split; [by apply size_pendingSet|]. split; [apply (inv_nodup s Hs)|].
  assert (∀ el, el ∈ pendingSet s ↔ el ∈ pendingQueue s) as Hiff.
  { intros el. rewrite (inv_set s Hs). apply elem_of_list_to_set. }
  split; [done|]. intros el Hel. apply enqueueElement_present. by apply Hiff.
Qed.

Lemma set_and_queue_in_step_witness :
  let s := applyOp (OpEnqueueElement 1)
             (applyOp OpDrainNext
                (applyOp (OpEnqueueElement 2)
                   (applyOp (OpEnqueueElement 1)
                      (initialState defaultSettings "CustomRender" ∅)))) in
  size (pendingSet s) = length (pendingQueue s) ∧
  NoDup (pendingQueue s) ∧
  enqueueElement 1 s = s.
Proof.
  cbv zeta.
  match goal with |- size (pendingSet ?s) = _ ∧ _ =>
    assert (reachable_by_ops s) as Hs
  end.
  { do 4 apply by_ops_apply. apply by_ops_init.
    intros el. unfold classListOf. rewrite lookup_empty. apply not_elem_of_nil. }
  destruct (set_and_queue_in_step _ Hs) as (H1 & H2 & _ & H4).
  split; [exact H1|]. split; [exact H2|]. apply H4.
  vm_compute. apply list_elem_of_here.
Defined.

(** C10. Every run of [flushQueue] with the plugin active and a non-empty
    queue reveals at least one element, whatever [maxOpsPerFrame],
    [frameBudgetMs] and the clock are: the queue gets strictly shorter, the
    most recently enqueued element loses the marker and leaves the store,
    and the set of hidden elements shrinks strictly. *)
Theorem flush_makes_progress (clock : nat → Q) (s : State) :
  active (store s) = true → pendingQueue s ≠ [] →
  let s' := flushQueue clock s in
  (length (pendingQueue s') < length (pendingQueue s))%nat ∧
  (∃ el rest, pendingQueue s = rest ++ [el] ∧ ¬ hidden s' el ∧ el ∉ pendingSet s') ∧
  (StoreInv s → hiddenNodes s' ⊂ hiddenNodes s).
Proof.
  intros Ha Hq. cbv zeta.
  destruct (flushQueue_spec clock s Ha Hq)
    as (revealed & Hne & H1 & H2 & H3 & _).
  cbv zeta in H1, H2, H3.
  destruct revealed as [|x revealed _] using rev_ind; [done|]. clear Hne.
  split; [|split].
  - rewrite H1, !length_app. simpl. lia.
  - exists x, (pendingQueue (flushQueue clock s) ++ revealed).
    split; [by rewrite H1, app_assoc|]. split.
    + rewrite (hidden_revealClasses _ s _ x H3). intros [_ Hx]. apply Hx.
      rewrite rev_unit. apply list_elem_of_here.
    + rewrite H2, list_to_set_app_L. set_solver.
  - intros Hs. pose proof (StoreInv_flushQueue clock s Hs) as Hs'.
    rewrite !hiddenNodes_pendingSet by done.
    assert (x ∈ pendingSet s) as Hx.
    { rewrite (inv_set s Hs), H1. apply elem_of_list_to_set.
      rewrite !elem_of_app, list_elem_of_singleton. auto. }
    rewrite H2, list_to_set_app_L. set_solver.
Qed.

Lemma flush_makes_progress_witness :
  let s := step (EvMutations [mkMutation [div 1; div 2; div 3]])
             (observing (mkSettings true 1200 0 1 true)) in
  let s' := flushQueue (λ _, 0%Q) s in
  (length (pendingQueue s') < length (pendingQueue s))%nat ∧
  pendingQueue s' = [1; 2]%positive.
Proof.
  cbv zeta. split.
  - apply flush_makes_progress; vm_compute; congruence.
  - vm_compute. reflexivity.
Defined.

(** C2. When a requested frame callback runs in a session, with
    [maxOpsPerFrame] at least 1, it reveals at least one and at most
    [maxOpsPerFrame] elements.  It stops after the first reveal that leaves
    the queue empty, or brings the count to [maxOpsPerFrame], or finds the
    time elapsed since the start reading at or over [frameBudgetMs]; no
    earlier reveal met either limit.  The count is checked first: the clock
    is read after a reveal only when the count check let the loop go on,
    so a flush that ends on its count has read the clock once less. *)
Theorem flush_within_budget (clock : nat → Q) (handle : positive) (s : State) :
  reachable s → handle ∈ frameCallbacks s → 1 ≤ maxOpsPerFrame (store s) →
  let s' := step (EvFrame handle clock) s in
  let r := size (hiddenNodes s ∖ hiddenNodes s') in
  let maxOps := maxOpsPerFrame (store s) in
  let budget := inject_Z (frameBudgetMs (store s)) in
  hiddenNodes s' ⊆ hiddenNodes s ∧
  r = (length (pendingQueue s) - length (pendingQueue s'))%nat ∧
  (1 ≤ r)%nat ∧ Z.of_nat r ≤ maxOps ∧
  (pendingQueue s' = [] ∨ maxOps ≤ Z.of_nat r ∨ (budget <= elapsed clock s r)%Q) ∧
  (∀ k, (1 ≤ k < r)%nat →
     Z.of_nat k < maxOps ∧ (elapsed clock s k < budget)%Q) ∧
  ticks s' =
    (ticks s + 1 + (if bool_decide (maxOps ≤ Z.of_nat r)%Z then pred r else r))%nat.
Proof.
  intros Hreach Hin Hmax. cbv zeta.
  pose proof (SessionInv_reachable s Hreach) as Hinv.
  pose proof (SessionInv_step (EvFrame handle clock) s Hinv) as Hinv'.
  pose proof (SessionInv_MidInv s Hinv) as [Hst Hc Hr Hsch Hn Hp Hl].
  assert (rafId s ≠ 0) as Hraf.
  { intros E. rewrite Hc, E in Hin. set_solver. }
  destruct (Hsch Hraf) as [Hq _]. destruct (Hp Hq) as [Ha _].
  simpl in *. rewrite bool_decide_eq_true_2 in * by done.
  set (s0 := set_frameCallbacks (frameCallbacks s ∖ {[handle]}) s) in *.
  destruct (flushQueue_spec clock s0 Ha Hq)
    as (revealed & Hne & H1 & H2 & H3 & H4 & H5 & H6 & _).
  cbv zeta in H1, H2, H3, H4, H5, H6.
  change (elapsed clock s0) with (elapsed clock s) in *.
  simpl in H1, H2, H3, H4, H5, H6.
  set (s' := flushQueue clock s0) in *.
  pose proof (inv_store s' Hinv') as Hst'.
  assert (NoDup (pendingQueue s' ++ revealed)) as Hnd
    by (rewrite <- H1; apply (inv_nodup s Hst)).
  apply NoDup_app in Hnd as (_ & Hdisj & Hndr).
  assert (hiddenNodes s ∖ hiddenNodes s' = list_to_set revealed) as Hset.
  { rewrite !hiddenNodes_pendingSet by done.
    rewrite H2, (inv_set s Hst), H1, list_to_set_app_L.
    apply set_eq. intros x.
    rewrite !elem_of_difference, !elem_of_union, !elem_of_list_to_set.
    specialize (Hdisj x). tauto. }
  assert (size (hiddenNodes s ∖ hiddenNodes s') = length revealed) as Hsize
    by (rewrite Hset; by apply size_list_to_set).
  rewrite Hsize.
  assert (1 ≤ length revealed)%nat as Hr1 by (destruct revealed; [done|simpl; lia]).
  split; [rewrite !hiddenNodes_pendingSet by done; rewrite H2; set_solver|].
  split; [rewrite H1, length_app; lia|].
  split; [done|]. split; [|split; [|split]].
  - destruct (decide (length revealed = 1%nat)) as [->|Hr2]; [exact Hmax|].
    destruct (H5 (length revealed - 1)%nat) as [G _]; lia.
  - destruct H4 as [H4|[H4|H4]]; [auto|auto|].
    right; right. by apply Qle_bool_iff.
  - intros k Hk. destruct (H5 k Hk) as [G1 G2]. split; [done|].
    apply Qnot_le_lt. intros Hle%Qle_bool_iff. congruence.
  - exact H6.
Qed.

Lemma flush_within_budget_witness :
  let s := step (EvMutations [mkMutation [div 1; div 2; div 3]])
             (observing (mkSettings true 1200 6 2 true)) in
  let s' := step (EvFrame 2 (λ _, 0%Q)) s in
  reachable s ∧ 2%positive ∈ frameCallbacks s ∧
  size (hiddenNodes s ∖ hiddenNodes s') = 2%nat ∧
  Z.of_nat (size (hiddenNodes s ∖ hiddenNodes s')) ≤ 2 ∧
  ticks s' = 2%nat.
Proof.
  cbv zeta.
  match goal with |- reachable ?s ∧ _ => assert (reachable s) as Hs end.
  { constructor. apply reachable_observing. }
  assert (2%positive ∈
          frameCallbacks (step (EvMutations [mkMutation [div 1; div 2; div 3]])
                            (observing (mkSettings true 1200 6 2 true)))) as Hin.
  { vm_compute. reflexivity. }
  split; [exact Hs|]. split; [exact Hin|].
  destruct (flush_within_budget (λ _, 0%Q) 2 _ Hs Hin) as (_ & _ & _ & H & _).
  { vm_compute. congruence. }
  split; [vm_compute; reflexivity|]. split; [exact H|].
  vm_compute. reflexivity.
Defined.

(** Whatever a flush takes, it takes from the end of the queue. *)
Lemma flushQueue_prefix clock s :
  ∃ revealed, pendingQueue s = pendingQueue (flushQueue clock s) ++ revealed.
Proof.
  destruct (active (store s)) eqn:Ha.
  - destruct (decide (pendingQueue s = [])) as [Hq|Hq].
    + exists []. unfold flushQueue. simpl. rewrite Ha, Hq. simpl.
      rewrite setFlushing_eq. simpl. by rewrite Hq.
    + destruct (flushQueue_spec clock s Ha Hq) as (revealed & _ & H1 & _).
      by exists revealed.
  - exists (pendingQueue s). unfold flushQueue. simpl. rewrite Ha. simpl.
    by rewrite revealAllPending_eq.
Qed.

(** The elements that lose the marker between two states of the store, when
    the later queue is a prefix of the earlier one. *)
Lemma revealed_suffix s s' revealed :
  StoreInv s → StoreInv s' →
  pendingQueue s = pendingQueue s' ++ revealed →
  hiddenNodes s ∖ hiddenNodes s' = list_to_set revealed.
Proof.
  intros Hs Hs' Hq. rewrite !hiddenNodes_pendingSet by done.
  pose proof (inv_nodup s Hs) as Hnd. rewrite Hq in Hnd.
  apply NoDup_app in Hnd as (_ & Hdisj & _).
  rewrite (inv_set s Hs), (inv_set s' Hs'), Hq, list_to_set_app_L.
  apply set_eq. intros x.
  rewrite !elem_of_difference, !elem_of_union, !elem_of_list_to_set.
  specialize (Hdisj x). tauto.
Qed.

(** ** Scenario A *)

Definition scenarioA_settings : Settings := mkSettings true 1200 1000000 2 true.

(** A clock that stands still: no flush ever reaches the time budget. *)
Definition frozenClock : nat → Q := λ _, 0%Q.

(** Elements A..E are references 1..5, inserted in that order. *)
Definition scenarioA_enqueued : State :=
  step (EvMutations [mkMutation [div 1; div 2; div 3; div 4; div 5]])
    (observing scenarioA_settings).
Definition scenarioA_flush1 : State := step (EvFrame 2 frozenClock) scenarioA_enqueued.
Definition scenarioA_flush2 : State := step (EvFrame 3 frozenClock) scenarioA_flush1.
Definition scenarioA_flush3 : State := step (EvFrame 4 frozenClock) scenarioA_flush2.

(** C4. Draining is last-in-first-out.  An enqueue of a new reference puts
    it at the end of the queue, a drain turn takes the reference at the end
    and reveals it, and the elements a flush reveals are a suffix of the
    queue: what stays is the older part, in order.  In Scenario A
    ([maxOpsPerFrame = 2], the time budget never reached, A..E enqueued in
    that order) the first flush reveals E and D and leaves [A; B; C], the
    second reveals C and B and leaves [A], the third reveals A, after which
    no callback is requested and the flushing flag is down. *)
Theorem flush_is_lifo :
  (∀ s el, el ∉ pendingSet s →
     pendingQueue (enqueueElement el s) = pendingQueue s ++ [el]) ∧
  (∀ s rest el, pendingQueue s = rest ++ [el] →
     ∃ s', drainNext s = Some (el, s') ∧ pendingQueue s' = rest ∧
           ¬ hidden s' el) ∧
  (∀ clock s, StoreInv s →
     ∃ revealed,
       pendingQueue s = pendingQueue (flushQueue clock s) ++ revealed ∧
       hiddenNodes s ∖ hiddenNodes (flushQueue clock s) = list_to_set revealed) ∧
  (pendingQueue scenarioA_enqueued = [1; 2; 3; 4; 5]%positive ∧
   hiddenNodes scenarioA_enqueued = list_to_set [1; 2; 3; 4; 5]%positive ∧
   rafId scenarioA_enqueued = 2) ∧
  (pendingQueue scenarioA_flush1 = [1; 2; 3]%positive ∧
   hiddenNodes scenarioA_enqueued ∖ hiddenNodes scenarioA_flush1
     = list_to_set [5; 4]%positive ∧
   rafId scenarioA_flush1 = 3 ∧ frameCallbacks scenarioA_flush1 = {[3%positive]}) ∧
  (pendingQueue scenarioA_flush2 = [1]%positive ∧
   hiddenNodes scenarioA_flush1 ∖ hiddenNodes scenarioA_flush2
     = list_to_set [3; 2]%positive ∧
   rafId scenarioA_flush2 = 4 ∧ frameCallbacks scenarioA_flush2 = {[4%positive]}) ∧
  (pendingQueue scenarioA_flush3 = [] ∧
   hiddenNodes scenarioA_flush2 ∖ hiddenNodes scenarioA_flush3
     = list_to_set [1]%positive ∧
   hiddenNodes scenarioA_flush3 = ∅ ∧
   rafId scenarioA_flush3 = 0 ∧ frameCallbacks scenarioA_flush3 = ∅ ∧
   isFlushing scenarioA_flush3 = false).
Proof.
  split; [|split; [|split]].
  - intros s el Hel. by rewrite enqueueElement_fresh.
  - intros s rest el Hq. eexists. split.
    + apply drainNext_Some. exists rest. split; [exact Hq|reflexivity].
    + split; [done|]. unfold hidden. simpl. rewrite classListOf_remove.
      rewrite decide_True by done. rewrite token_remove_elem. tauto.
  - intros clock s Hs. destruct (flushQueue_prefix clock s) as [revealed H].
    exists revealed. split; [exact H|].
    apply revealed_suffix; [done|by apply StoreInv_flushQueue|done].
  - repeat split; apply bool_decide_eq_true_1; vm_compute; reflexivity.
Qed.

(** ** Intake below the limit *)

(** [enqueueElement] over a list of references, first to last. *)
Definition enqueueAll (els : list Ref) (s : State) : State :=
  foldl (λ acc el, enqueueElement el acc) s els.

(** The references one added node makes [enqueueTree] walk: none for a node
    that is not an element or that sits under the ignore marker, otherwise
    the walk of its subtree in document order. *)
Definition intakeOf (n : Inserted) : list Ref :=
  match node n with
  | Other _ => []
  | Element root children =>
      if closest IGNORE_ATTR root (ancestors n) then []
      else map ref (walk root children)
  end.

(** The state after [requestAnimationFrame] has handed out [h] and
    [scheduleFlush] has stored it. *)
Definition scheduled (h : positive) (cb : gset positive) (t : State) : State :=
  mkState (store t) (pluginName t) (Z.pos h) (pendingQueue t) (pendingSet t)
    true (isStopped t) (observer t) (startDelayTimer t) (pollTimer t)
    (appMount t) (activeListener t) (classes t) cb h (ticks t).

Lemma enqueueWalk_enqueueAll root children s :
  enqueueWalk root children s = enqueueAll (map ref (walk root children)) s.
Proof. unfold enqueueWalk, enqueueAll. by rewrite foldl_fmap. Qed.

Lemma enqueueAll_app l k s :
  enqueueAll (l ++ k) s = enqueueAll k (enqueueAll l s).
Proof. unfold enqueueAll. by rewrite foldl_app. Qed.

Lemma sameControl_enqueueAll l s : sameControl s (enqueueAll l s).
Proof.
  revert s. induction l as [|x l IH]; intros s; [apply sameControl_refl|].
  eapply sameControl_trans; [apply (sameControl_enqueueElement x)|apply IH].
Qed.

Lemma enqueueAll_queue l s :
  ∃ new, pendingQueue (enqueueAll l s) = pendingQueue s ++ new ∧
         (length new ≤ length l)%nat.
Proof.
  revert s. induction l as [|x l IH]; intros s.
  - exists []. split; [by rewrite app_nil_r|done].
  - destruct (IH (enqueueElement x s)) as (new & Hq & Hlen).
    change (enqueueAll (x :: l) s) with (enqueueAll l (enqueueElement x s)).
    rewrite Hq. unfold enqueueElement. destruct (bool_decide _); simpl.
    + exists new. split; [done|lia].
    + exists (x :: new). split; [by rewrite <- app_assoc|simpl; lia].
Qed.

Lemma enqueueAll_scheduled h cb l t :
  enqueueAll l (scheduled h cb t) = scheduled h cb (enqueueAll l t).
Proof.
  revert t. induction l as [|x l IH]; intros t; [done|].
  change (enqueueAll (x :: l) ?u) with (enqueueAll l (enqueueElement x u)).
  rewrite <- IH. f_equal. unfold enqueueElement. simpl.
  by destruct (bool_decide _).
Qed.

Lemma scheduleFlush_scheduled h cb t :
  scheduleFlush (scheduled h cb t) = scheduled h cb t.
Proof.
  destruct (scheduleFlush_cases (scheduled h cb t)) as [[E _]|[_ (_ & H & _)]];
    [done|]. simpl in H. discriminate.
Qed.

(** A second [scheduleFlush] after more enqueues absorbs an earlier one. *)
Lemma scheduleFlush_absorb l t :
  scheduleFlush (enqueueAll l (scheduleFlush t)) = scheduleFlush (enqueueAll l t).
Proof.
  destruct (scheduleFlush_cases t) as [[-> _]|[E (Ha & Hr & Hq)]]; [done|].
  rewrite E.
  change (mkState (store t) (pluginName t) (Z.pos (Pos.succ (rafCounter t)))
            (pendingQueue t) (pendingSet t) true (isStopped t) (observer t)
            (startDelayTimer t) (pollTimer t) (appMount t) (activeListener t)
            (classes t) ({[Pos.succ (rafCounter t)]} ∪ frameCallbacks t)
            (Pos.succ (rafCounter t)) (ticks t))
    with (scheduled (Pos.succ (rafCounter t))
            ({[Pos.succ (rafCounter t)]} ∪ frameCallbacks t) t).
  rewrite enqueueAll_scheduled, scheduleFlush_scheduled.
  pose proof (sameControl_enqueueAll l t)
    as (E1&E2&E3&E4&E5&E6&E7&E8&E9&E10&E11&E12).
  destruct (enqueueAll_queue l t) as (new & Hnew & _).
  destruct (scheduleFlush_cases (enqueueAll l t)) as [[_ H]|[-> _]].
  - destruct H as [H|[H|H]]; [congruence|congruence|].
    rewrite Hnew in H. by destruct (pendingQueue t).
  - unfold scheduled. by rewrite E11, E12.
Qed.

Lemma intakeOf_walked n root children :
  node n = Element root children →
  closest IGNORE_ATTR root (ancestors n) = false →
  intakeOf n = map ref (walk root children) ∧ intakeOf n ≠ [].
Proof. intros Hn Hc. unfold intakeOf. by rewrite Hn, Hc. Qed.

Lemma intakeOf_skipped n s :
  intakeOf n = [] → enqueueTree n s = s.
Proof.
  unfold intakeOf, enqueueTree. destruct (negb _); [done|].
  destruct (node n) as [root children|]; [|done].
  by destruct (closest _ _ _).
Qed.

(** One added node, with room left under the limit. *)
Lemma enqueueTree_below n s :
  active (store s) = true →
  (length (pendingQueue s) + length (intakeOf n) < QUEUE_LIMIT)%nat →
  enqueueTree n s =
  match intakeOf n with
  | [] => s
  | _ => scheduleFlush (enqueueAll (intakeOf n) s)
  end.
Proof.
  intros Ha Hlen. destruct (intakeOf n) as [|x l] eqn:Hi;
    [by apply intakeOf_skipped|].
  unfold intakeOf in Hi. unfold enqueueTree. rewrite Ha. simpl.
  destruct (node n) as [root children|]; [|done].
  destruct (closest _ _ _); [done|].
  rewrite enqueueWalk_enqueueAll, Hi.
  destruct (enqueueAll_queue (x :: l) s) as (new & Hnew & Hl).
  rewrite bool_decide_eq_false_2; [done|].
  rewrite Hnew, length_app. lia.
Qed.

(** A batch of added nodes that stays under the limit: every walked element
    is enqueued, in the order of the batch and in document order within a
    subtree, and one frame is requested at the end. *)
Lemma intake_below nodes s :
  active (store s) = true →
  (length (pendingQueue s) + length (concat (map intakeOf nodes)) < QUEUE_LIMIT)%nat →
  foldl (λ acc n, enqueueTree n acc) s nodes =
  match concat (map intakeOf nodes) with
  | [] => s
  | _ => scheduleFlush (enqueueAll (concat (map intakeOf nodes)) s)
  end.
Proof.
  revert s. induction nodes as [|n nodes IH]; intros s Ha Hlen; [done|].
  simpl in Hlen |- *. rewrite length_app in Hlen.
  rewrite enqueueTree_below by (done || lia).
  destruct (intakeOf n) as [|x l] eqn:Hi; simpl.
  - apply IH; [done|]. simpl in Hlen. lia.
  - set (i1 := x :: l) in *.
    assert (store (scheduleFlush (enqueueAll i1 s)) = store s) as Hst.
    { pose proof (sameControl_enqueueAll i1 s) as (E1 & _).
      destruct (scheduleFlush_cases (enqueueAll i1 s)) as [[-> _]|[-> _]]; done. }
    assert (pendingQueue (scheduleFlush (enqueueAll i1 s))
            = pendingQueue (enqueueAll i1 s)) as Hq
      by apply sameStore_scheduleFlush.
    destruct (enqueueAll_queue i1 s) as (new & Hnew & Hl).
    rewrite IH.
    + destruct (concat (map intakeOf nodes)) as [|y k] eqn:Hc.
      * by rewrite app_nil_r.
      * change (x :: l ++ y :: k) with (i1 ++ y :: k).
        by rewrite scheduleFlush_absorb, enqueueAll_app.
    + change (enqueueAll l (enqueueElement x s)) with (enqueueAll i1 s).
      by rewrite Hst.
    + change (enqueueAll l (enqueueElement x s)) with (enqueueAll i1 s).
      rewrite Hq, Hnew, length_app. lia.
Qed.

Lemma handleMutations_flat mutations s :
  handleMutations mutations s =
  if negb (active (store s)) then s
  else foldl (λ acc n, enqueueTree n acc) s (concat (map addedNodes mutations)).
Proof.
  unfold handleMutations. destruct (negb _); [done|].
  revert s. induction mutations as [|m ms IH]; intros s; [done|].
  simpl. by rewrite foldl_app, IH.
Qed.

(** What [enqueueAll] leaves when the references are new and distinct. *)
Lemma enqueueAll_fresh l s :
  NoDup l → (∀ x, x ∈ l → x ∉ pendingSet s) →
  pendingQueue (enqueueAll l s) = pendingQueue s ++ l ∧
  pendingSet (enqueueAll l s) = list_to_set l ∪ pendingSet s ∧
  (∀ x, x ∈ l → PENDING_CLASS ∈ classListOf (classes (enqueueAll l s)) x).
Proof.
  revert s. induction l as [|x l IH]; intros s Hnd Hfresh.
  - simpl. split; [by rewrite app_nil_r|]. split; [set_solver|].
    intros x Hx. by apply elem_of_nil in Hx.
  - apply NoDup_cons in Hnd as [Hx Hnd].
    change (enqueueAll (x :: l) s) with (enqueueAll l (enqueueElement x s)).
    assert (x ∉ pendingSet s) as Hxs by (apply Hfresh; apply list_elem_of_here).
    rewrite enqueueElement_fresh by done.
    match goal with |- context [enqueueAll l ?t] => set (s1 := t) end.
    destruct (IH s1 Hnd) as (H1 & H2 & H3).
    { intros y Hy. simpl. rewrite elem_of_union, elem_of_singleton.
      intros [->|Hys]; [done|]. apply (Hfresh y); [|done].
      by apply list_elem_of_further. }
    rewrite H1, H2. simpl. split; [by rewrite <- app_assoc|].
    split; [set_solver|].
    assert (∀ y k t, PENDING_CLASS ∈ classListOf (classes t) y →
              PENDING_CLASS ∈ classListOf (classes (enqueueAll k t)) y) as Hkeep.
    { clear. intros y. induction k as [|z k IHk]; intros t Ht; [done|].
      change (enqueueAll (z :: k) t) with (enqueueAll k (enqueueElement z t)).
      apply IHk. unfold enqueueElement. destruct (bool_decide _); [done|].
      simpl. rewrite classListOf_add. destruct (decide (z = y)) as [->|]; [|done].
      apply token_add_elem. auto. }
    intros y [->|Hy]%elem_of_cons; [|by apply H3].
    apply Hkeep. simpl. rewrite classListOf_add, decide_True by done.
    apply token_add_elem. auto.
Qed.

(** ** Overflow *)

(** Nothing pending, nothing hidden, no frame callback requested, flushing
    flag down: the store is empty and the Flush State is Idle. *)
Definition idleAndEmpty (s : State) : Prop :=
  pendingQueue s = [] ∧ pendingSet s = ∅ ∧ hiddenNodes s = ∅ ∧
  rafId s = 0 ∧ frameCallbacks s = ∅ ∧ isFlushing s = false.

Lemma idleAndEmpty_revealAllPending s :
  StoreInv s →
  frameCallbacks s = match rafId s with Z.pos h => {[h]} | _ => ∅ end →
  idleAndEmpty (revealAllPending s).
Proof.
  intros Hst Hc. pose proof (StoreInv_revealAllPending s Hst) as Hst'.
  pose proof (hiddenNodes_pendingSet _ Hst') as Hh.
  rewrite revealAllPending_eq in *. simpl in Hh.
  repeat split; simpl; try done. by apply canceled_empty.
Qed.

(** Every element of the walk is in the queue afterwards, so a walk over
    [k] distinct elements leaves at least [k] entries. *)
Lemma enqueueWalk_length root children s :
  StoreInv s → NoDup (map ref (walk root children)) →
  (length (walk root children) ≤ length (pendingQueue (enqueueWalk root children s)))%nat.
Proof.
  intros Hs Hnd. rewrite <- (length_map ref).
  apply submseteq_length, NoDup_submseteq; [done|].
  intros x (e & -> & He)%list_elem_of_fmap.
  by apply enqueueEach_pending.
Qed.

(** C3, as the code has it.  When the queue has reached [QUEUE_LIMIT] after
    the walk of an inserted subtree, that same call of [enqueueTree] reveals
    every pending element, empties the store, cancels the requested frame
    callback and leaves the Flush State Idle.  In particular, when the
    subtree of one added node holds at least [QUEUE_LIMIT] distinct
    elements that the walk returns (4001, say), the batch that delivers
    this one node ends with nothing pending and no frame callback
    requested.  The limit is checked after the walk of each added node, not
    at the end of a batch. *)
Theorem overflow_reveals_all (n : Inserted) (root : Elem) (children : list Node)
    (s : State) :
  SessionInv s → active (store s) = true →
  node n = Element root children →
  closest IGNORE_ATTR root (ancestors n) = false →
  ((QUEUE_LIMIT ≤ length (pendingQueue (enqueueWalk root children s)))%nat →
   idleAndEmpty (enqueueTree n s)) ∧
  (NoDup (map ref (walk root children)) →
   (QUEUE_LIMIT ≤ length (walk root children))%nat →
   idleAndEmpty (handleMutations [mkMutation [n]] s)).
Proof.
  intros Hs Ha Hn Hc.
  pose proof (SessionInv_MidInv s Hs) as [Hst Hcb _ _ _ _ _].
  pose proof (sameControl_enqueueWalk root children s)
    as (_&_&E3&_&_&_&_&_&_&_&E11&_).
  assert ((QUEUE_LIMIT ≤ length (pendingQueue (enqueueWalk root children s)))%nat →
          idleAndEmpty (enqueueTree n s)) as HA.
  { intros Hlen. unfold enqueueTree. rewrite Ha, Hn, Hc. simpl.
    rewrite bool_decide_eq_true_2 by done.
    apply idleAndEmpty_revealAllPending; [by apply StoreInv_enqueueWalk|].
    by rewrite E11, E3. }
  split; [exact HA|]. intros Hnd Hlen.
  unfold handleMutations. rewrite Ha. simpl. apply HA.
  etrans; [exact Hlen|]. by apply enqueueWalk_length.
Qed.

(** *** Batches of childless [<div>]s *)

Lemma step_mutations mutations s :
  observer s = true → step (EvMutations mutations) s = handleMutations mutations s.
Proof. intros H. simpl. by rewrite H. Qed.


Lemma enqueueTree_div r s :
  active (store s) = true →
  enqueueTree (div r) s =
  if bool_decide (QUEUE_LIMIT ≤ length (pendingQueue (enqueueElement r s)))%nat
  then revealAllPending (enqueueElement r s)
  else scheduleFlush (enqueueElement r s).
Proof. intros Ha. unfold enqueueTree. rewrite Ha. reflexivity. Qed.

Lemma intakeOf_div r : intakeOf (div r) = [r].
Proof. reflexivity. Qed.

Lemma intake_divs l : concat (map intakeOf (map div l)) = l.
Proof.
  induction l as [|r l IH]; [done|].
  change (concat (map intakeOf (map div (r :: l))))
    with (intakeOf (div r) ++ concat (map intakeOf (map div l))).
  by rewrite intakeOf_div, IH.
Qed.

(** The limit is checked after each added node: when the queue reaches it
    at the last but one node of a batch, that node's call reveals
    everything, and the last node is enqueued afterwards and stays pending
    with a new frame requested. *)
Lemma overflow_then_fresh s l a b :
  active (store s) = true → pendingQueue s = [] → pendingSet s = ∅ →
  rafId s = 0 → frameCallbacks s = ∅ →
  NoDup (l ++ [a]) → l ≠ [] → S (length l) = QUEUE_LIMIT →
  let s' := foldl (λ acc n, enqueueTree n acc) s (map div (l ++ [a; b])) in
  pendingQueue s' = [b] ∧ hidden s' b ∧
  rafId s' = Z.pos (Pos.succ (Pos.succ (rafCounter s))) ∧
  frameCallbacks s' = {[Pos.succ (Pos.succ (rafCounter s))]}.
Proof.
  intros Ha Hq Hs Hr Hcb Hnd Hne Hlen. cbv zeta.
  apply NoDup_app in Hnd as (Hndl & Hdisj & _).
  assert (a ∉ l) as Hal.
  { intros Hin. apply (Hdisj a Hin). apply list_elem_of_here. }
  rewrite map_app, foldl_app.
  rewrite (intake_below (map div l) s).
  2: exact Ha.
  2: { rewrite intake_divs, Hq. cbn [length]. lia. }
  rewrite intake_divs.
  assert (match l with
          | [] => s
          | _ :: _ => scheduleFlush (enqueueAll l s)
          end = scheduleFlush (enqueueAll l s)) as -> by (by destruct l).
  assert (1 ≤ length l)%nat as Hl1 by (destruct l; [done|cbn [length]; lia]).
  destruct (enqueueAll_fresh l s Hndl) as (X1 & X2 & _).
  { intros y _. rewrite Hs. set_solver. }
  pose proof (sameControl_enqueueAll l s)
    as (E1&E2&E3&E4&E5&E6&E7&E8&E9&E10&E11&E12).
  rewrite Hq, app_nil_l in X1.
  set (X := enqueueAll l s) in *.
  assert (scheduleFlush X =
          scheduled (Pos.succ (rafCounter s)) {[Pos.succ (rafCounter s)]} X) as Ht1.
  { destruct (scheduleFlush_cases X) as [[_ H]|[-> _]].
    - destruct H as [H|[H|H]]; [congruence|congruence|]. by rewrite X1 in H.
    - unfold scheduled. rewrite E11, E12, Hcb. f_equal. set_solver. }
  rewrite Ht1. set (t1 := scheduled _ _ X).
  change (foldl (λ acc n, enqueueTree n acc) t1 (map div [a; b]))
    with (enqueueTree (div b) (enqueueTree (div a) t1)).
  assert (active (store t1) = true) as Ha1 by (simpl; congruence).
  assert (a ∉ pendingSet t1) as Hfa.
  { simpl. rewrite X2, Hs. rewrite elem_of_union, elem_of_list_to_set.
    set_solver. }
  rewrite (enqueueTree_div a t1 Ha1), (enqueueElement_fresh a t1 Hfa).
  rewrite bool_decide_eq_true_2
    by (cbn [pendingQueue set_pendingQueue]; rewrite length_app;
        cbn [pendingQueue set_pendingSet set_classes t1 scheduled];
        rewrite X1; cbn [length]; lia).
  rewrite revealAllPending_eq. simpl.
  match goal with |- context [enqueueTree (div b) ?t] => set (t2 := t) end.
  assert (active (store t2) = true) as Ha2 by (simpl; congruence).
  assert (b ∉ pendingSet t2) as Hfb by (simpl; set_solver).
  rewrite (enqueueTree_div b t2 Ha2), (enqueueElement_fresh b t2 Hfb).
  rewrite bool_decide_eq_false_2
    by (cbn [pendingQueue set_pendingQueue set_pendingSet set_classes t2 app length];
        lia).
  match goal with |- context [scheduleFlush ?t] => set (t3 := t) end.
  destruct (scheduleFlush_cases t3) as [[_ H]|[-> _]].
  { destruct H as [H|[H|H]]; simpl in H; [congruence|done|done]. }
  simpl. split; [done|]. split; [|split; [done|]].
  - unfold hidden. simpl. rewrite classListOf_add, decide_True by done.
    apply token_add_elem. auto.
  - unfold canceled. simpl. set_solver.
Qed.

Lemma pos_of_nat_range_NoDup j n :
  (1 ≤ j)%nat → NoDup (map Pos.of_nat (seq j n)).
Proof.
  intros Hj. apply (NoDup_fmap_2_strong Pos.of_nat); [|apply NoDup_seq].
  intros x y Hx%elem_of_seq Hy%elem_of_seq Heq.
  apply Nat2Pos.inj in Heq; lia.
Qed.

(** One added node whose subtree holds 4001 elements: a [<div>] with 4000
    [<div>] children. *)
Definition bigSubtree : Inserted :=
  mkInserted []
    (Element (mkElem 1 "DIV" "" [])
       (map (λ i, Element (mkElem (Pos.of_nat i) "DIV" "" []) []) (seq 2 4000))).

Lemma overflow_reveals_all_witness :
  SessionInv (observing defaultSettings) ∧
  length (walk (mkElem 1 "DIV" "" [])
            (map (λ i, Element (mkElem (Pos.of_nat i) "DIV" "" []) [])
               (seq 2 4000))) = 4001%nat ∧
  idleAndEmpty (handleMutations [mkMutation [bigSubtree]] (observing defaultSettings)).
Proof.
  assert (SessionInv (observing defaultSettings)) as Hs
    by apply SessionInv_reachable, reachable_observing.
  assert (∀ l, flat_map nextNodes
                 (map (λ i, Element (mkElem (Pos.of_nat i) "DIV" "" []) []) l)
               = map (λ i, mkElem (Pos.of_nat i) "DIV" "" []) l) as Hflat.
  { induction l as [|i l IH]; [reflexivity|].
    change (mkElem (Pos.of_nat i) "DIV" "" [] ::
            flat_map nextNodes
              (map (λ i, Element (mkElem (Pos.of_nat i) "DIV" "" []) []) l)
            = mkElem (Pos.of_nat i) "DIV" "" [] ::
              map (λ i, mkElem (Pos.of_nat i) "DIV" "" []) l).
    by rewrite IH. }
  assert (length (walk (mkElem 1 "DIV" "" [])
            (map (λ i, Element (mkElem (Pos.of_nat i) "DIV" "" []) [])
               (seq 2 4000))) = 4001%nat) as Hlen.
  { unfold walk. rewrite Hflat. cbn [length].
    rewrite length_map, length_seq. reflexivity. }
  split; [exact Hs|]. split; [exact Hlen|].
  refine (proj2 (overflow_reveals_all bigSubtree (mkElem 1 "DIV" "" [])
                   (map (λ i, Element (mkElem (Pos.of_nat i) "DIV" "" []) [])
                      (seq 2 4000)) _ Hs _ _ _) _ _).
  - reflexivity.
  - reflexivity.
  - reflexivity.
  - unfold walk. rewrite Hflat.
    change (NoDup (1%positive ::
                   map ref (map (λ i, mkElem (Pos.of_nat i) "DIV" "" [])
                              (seq 2 4000)))).
    rewrite map_map.
    change (NoDup (Pos.of_nat 1 :: map Pos.of_nat (seq 2 4000))).
    change (NoDup (map Pos.of_nat (seq 1 4001))).
    apply pos_of_nat_range_NoDup. lia.
  - rewrite Hlen. unfold QUEUE_LIMIT. apply Nat.le_succ_diag_r.
Defined.

(** A batch that delivers 4001 elements as 4001 added nodes. *)
Definition manyNodes : list MutationRecord :=
  [mkMutation (map (λ i, div (Pos.of_nat i)) (seq 1 4001))].

(** C3 as stated fails on such a batch: the limit fires after the 4000th
    added node, and the 4001st is enqueued afterwards, so the batch ends
    with one element pending and hidden, and a frame callback requested. *)
Lemma overflow_batch_counterexample :
  let s' := step (EvMutations manyNodes) (observing defaultSettings) in
  pendingQueue s' = [4001%positive] ∧ hidden s' 4001 ∧
  rafId s' = 3 ∧ frameCallbacks s' = {[3%positive]} ∧
  ¬ idleAndEmpty s'.
Proof.
  cbv zeta.
  assert (step (EvMutations manyNodes) (observing defaultSettings) =
          foldl (λ acc n, enqueueTree n acc) (observing defaultSettings)
            (map div (map Pos.of_nat (seq 1 3999) ++ [4000; 4001]%positive)))
    as ->.
  { assert (concat (map addedNodes manyNodes) =
            map div (map Pos.of_nat (seq 1 3999) ++ [4000; 4001]%positive))
      as Hnodes.
    { unfold manyNodes. cbn [map concat addedNodes]. rewrite app_nil_r.
      change 4001%nat with (3999 + 2)%nat.
      rewrite seq_app, !map_app, !map_map. reflexivity. }
    rewrite step_mutations by reflexivity.
    rewrite handleMutations_flat, Hnodes.
    assert (active (store (observing defaultSettings)) = true) as ->
      by reflexivity.
    reflexivity. }
  assert (NoDup (map Pos.of_nat (seq 1 3999) ++ [4000%positive])) as Hnd.
  { change (NoDup (map Pos.of_nat (seq 1 3999) ++ map Pos.of_nat (seq (1 + 3999) 1))).
    rewrite <- map_app, <- seq_app. apply pos_of_nat_range_NoDup. lia. }
  assert (map Pos.of_nat (seq 1 3999) ≠ []) as Hne.
  { intros H. apply (f_equal length) in H.
    rewrite length_map, length_seq in H. discriminate. }
  assert (S (length (map Pos.of_nat (seq 1 3999))) = QUEUE_LIMIT) as Hlen.
  { rewrite length_map, length_seq. reflexivity. }
  destruct (overflow_then_fresh (observing defaultSettings)
              (map Pos.of_nat (seq 1 3999)) 4000 4001
              eq_refl eq_refl eq_refl eq_refl eq_refl Hnd Hne Hlen)
    as (H1 & H2 & H3 & H4).
  split; [exact H1|]. split; [exact H2|]. split; [exact H3|]. split; [exact H4|].
  intros (Hq & _). generalize (eq_trans (eq_sym Hq) H1). discriminate.
Qed.

(** * Further properties of the scheduler and its life cycle *)

(** ** Life-cycle flags *)

(** Two states with the same life-cycle flags and settings. *)
Definition sameLife (s s' : State) : Prop :=
  store s' = store s ∧ pluginName s' = pluginName s ∧
  isStopped s' = isStopped s ∧ observer s' = observer s ∧
  startDelayTimer s' = startDelayTimer s ∧ pollTimer s' = pollTimer s ∧
  appMount s' = appMount s ∧ activeListener s' = activeListener s.

Lemma sameLife_refl s : sameLife s s.
Proof. unfold sameLife. tauto. Qed.

Lemma sameLife_trans s1 s2 s3 : sameLife s1 s2 → sameLife s2 s3 → sameLife s1 s3.
Proof.
  unfold sameLife. intros (?&?&?&?&?&?&?&?) (?&?&?&?&?&?&?&?).
  repeat split; congruence.
Qed.

Lemma sameControl_sameLife s s' : sameControl s s' → sameLife s s'.
Proof.
  unfold sameControl, sameLife. intros (?&?&?&?&?&?&?&?&?&?&?&?). tauto.
Qed.

Lemma sameLife_revealAllPending s : sameLife s (revealAllPending s).
Proof. rewrite revealAllPending_eq. unfold sameLife. simpl. tauto. Qed.

Lemma sameLife_scheduleFlush s : sameLife s (scheduleFlush s).
Proof.
  destruct (scheduleFlush_cases s) as [[-> _]|[-> _]];
    [apply sameLife_refl|unfold sameLife; simpl; tauto].
Qed.

Lemma sameLife_setFlushing next s : sameLife s (setFlushing next s).
Proof. rewrite setFlushing_eq. unfold sameLife. simpl. tauto. Qed.

Lemma sameLife_enqueueTree n s : sameLife s (enqueueTree n s).
Proof.
  unfold enqueueTree. destruct (negb _); [apply sameLife_refl|].
  destruct (node n) as [root children|]; [|apply sameLife_refl].
  destruct (closest _ _ _); [apply sameLife_refl|].
  pose proof (sameControl_sameLife _ _ (sameControl_enqueueWalk root children s)).
  destruct (bool_decide _).
  - eapply sameLife_trans; [eassumption|apply sameLife_revealAllPending].
  - eapply sameLife_trans; [eassumption|apply sameLife_scheduleFlush].
Qed.

Lemma sameLife_enqueueTrees nodes s :
  sameLife s (foldl (λ acc n, enqueueTree n acc) s nodes).
Proof.
  revert s. induction nodes as [|n nodes IH]; intros s; [apply sameLife_refl|].
  eapply sameLife_trans; [apply (sameLife_enqueueTree n)|apply IH].
Qed.

Lemma sameLife_handleMutations mutations s :
  sameLife s (handleMutations mutations s).
Proof.
  rewrite handleMutations_flat. destruct (negb _); [apply sameLife_refl|].
  apply sameLife_enqueueTrees.
Qed.

Lemma sameLife_flushQueue clock s : sameLife s (flushQueue clock s).
Proof.
  unfold flushQueue.
  assert (sameLife s (set_rafId 0 s)) as H0 by (unfold sameLife; simpl; tauto).
  destruct (negb _).
  { eapply sameLife_trans; [exact H0|apply sameLife_revealAllPending]. }
  destruct (bool_decide _).
  { eapply sameLife_trans; [exact H0|apply sameLife_setFlushing]. }
  simpl.
  match goal with |- context [flushLoop ?c ?m ?b ?st ?f ?o ?x] =>
    pose proof (sameControl_sameLife _ _ (sameControl_flushLoop c m b st f o x)) as H1;
    set (s2 := flushLoop c m b st f o x) in *
  end.
  assert (sameLife s s2) as H2.
  { eapply sameLife_trans; [|exact H1]. unfold sameLife. simpl. tauto. }
  destruct (bool_decide _).
  - eapply sameLife_trans; [exact H2|apply sameLife_scheduleFlush].
  - eapply sameLife_trans; [exact H2|apply sameLife_setFlushing].
Qed.

(** While the plugin is stopped it observes nothing, waits for nothing and
    listens to nothing; the observer and the start-delay timer only exist
    once the root container has been found. *)
Record LifeInv (s : State) : Prop := mkLifeInv {
  life_stopped :
    isStopped s = true →
    observer s = false ∧ pollTimer s = false ∧ startDelayTimer s = false ∧
    activeListener s = false ∧ appMount s = false;
  life_observer : observer s = true → appMount s = true;
  life_timer : startDelayTimer s = true → appMount s = true
}.

Lemma LifeInv_sameLife s s' : sameLife s s' → LifeInv s → LifeInv s'.
Proof.
  intros (_&_&E1&E2&E3&E4&E5&E6) [H1 H2 H3].
  split; rewrite ?E1, ?E2, ?E3, ?E4, ?E5, ?E6; done.
Qed.

Lemma LifeInv_step ev s : pluginName s ≠ "" → LifeInv s → LifeInv (step ev s).
Proof.
  intros Hn Hs. pose proof Hs as [H1 H2 H3].
  destruct ev as [ready|ready| | |ms|h clock|v|v|v]; simpl.
  - unfold start, registerSettingsListeners, waitForAppMount, isAppMountReady,
      onAppMountReady, scheduleThrottleStart. simpl.
    rewrite bool_decide_eq_false_2 by done. simpl.
    destruct ready; simpl.
    + split; simpl; done.
    + destruct (pollTimer s); split; simpl; done.
  - destruct (pollTimer s) eqn:Hp; [|done].
    destruct (isStopped s) eqn:Hst; [destruct (H1 eq_refl) as (_&?&_); congruence|].
    unfold pollElapsed, isAppMountReady, onAppMountReady, scheduleThrottleStart.
    rewrite Hst. destruct ready; simpl; [|done]. rewrite Hst.
    split; simpl; try done. by rewrite Hst.
  - destruct (startDelayTimer s) eqn:Ht; [|done].
    destruct (isStopped s) eqn:Hst;
      [destruct (H1 eq_refl) as (_&_&?&_); congruence|].
    unfold startDelayElapsed, startObserver. simpl. rewrite Hst.
    rewrite (H3 eq_refl). simpl.
    destruct (observer s) eqn:Ho; split; simpl; rewrite ?Hst, ?Ho; try done.
    all: intros _; by apply H3.
  - rewrite stop_eq by done. split; simpl; done.
  - destruct (observer s); [|done].
    apply (LifeInv_sameLife s); [apply sameLife_handleMutations|exact Hs].
  - destruct (bool_decide _); [|done].
    apply (LifeInv_sameLife s); [|exact Hs].
    eapply sameLife_trans; [|apply sameLife_flushQueue].
    unfold sameLife. simpl. tauto.
  - assert (LifeInv (set_store (set_active v (store s)) s)) as H0
      by (split; simpl; done).
    destruct (activeListener s); [|done]. unfold onActiveChanged.
    destruct (negb v).
    + revert H0. apply LifeInv_sameLife, sameLife_revealAllPending.
    + revert H0. apply LifeInv_sameLife, sameLife_scheduleFlush.
  - split; simpl; done.
  - split; simpl; done.
Qed.

Lemma LifeInv_reachable s : reachable s → LifeInv s.
Proof.
  induction 1 as [cfg name dom Hn Hd|ev s Hr IH].
  - split; simpl; done.
  - apply LifeInv_step; [|done]. apply (inv_name s). by apply SessionInv_reachable.
Qed.

Lemma idleAndEmpty_of_empty s :
  SessionInv s → pendingQueue s = [] → idleAndEmpty s.
Proof.
  intros [Hst [Hc Hr Hsch Hf] _ _ _ _] Hq.
  assert (rafId s = 0) as Hr0.
  { destruct (decide (rafId s = 0)) as [|Hne]; [done|]. by apply Hsch in Hne. }
  assert (pendingSet s = ∅) as Hset
    by (rewrite (inv_set s Hst), Hq; apply list_to_set_nil).
  unfold idleAndEmpty.
  split; [exact Hq|]. split; [exact Hset|].
  split; [rewrite (hiddenNodes_pendingSet s Hst); exact Hset|].
  split; [exact Hr0|].
  split; [rewrite Hc, Hr0; reflexivity|].
  rewrite Hf. apply bool_decide_eq_false_2. intros H. by apply H.
Qed.

Lemma isStopped_cleared (t : State) :
  isStopped (set_appMount false (set_startDelayTimer false (set_pollTimer false t)))
  = isStopped t.
Proof. reflexivity. Qed.

Lemma isStopped_unregistered (t : State) :
  isStopped (stopObserver (unregisterSettingsListeners (set_isStopped true t)))
  = true.
Proof.
  unfold stopObserver, unregisterSettingsListeners.
  destruct (bool_decide _); reflexivity.
Qed.

Lemma isStopped_stop s : isStopped (step EvStop s) = true.
Proof.
  change (isStopped (stop s) = true). unfold stop.
  rewrite isStopped_cleared.
  pose proof (sameLife_revealAllPending
                (stopObserver (unregisterSettingsListeners (set_isStopped true s))))
    as (_&_&E&_).
  rewrite E. apply isStopped_unregistered.
Qed.

Lemma isStopped_step ev s :
  (∀ ready, ev ≠ EvStart ready) → isStopped s = true →
  isStopped (step ev s) = true.
Proof.
  intros Hev Hs. destruct ev as [ready|ready| | |ms|h clock|v|v|v].
  - by destruct (Hev ready).
  - cbn [step]. destruct (pollTimer s); [|exact Hs].
    unfold pollElapsed. rewrite Hs. exact Hs.
  - cbn [step]. destruct (startDelayTimer s); [|exact Hs].
    unfold startDelayElapsed. cbn [isStopped set_startDelayTimer].
    rewrite Hs. exact Hs.
  - apply isStopped_stop.
  - cbn [step]. destruct (observer s); [|exact Hs].
    pose proof (sameLife_handleMutations ms s) as (_&_&E&_).
    rewrite E. exact Hs.
  - cbn [step]. destruct (bool_decide _); [|exact Hs].
    pose proof (sameLife_flushQueue clock
                  (set_frameCallbacks (frameCallbacks s ∖ {[h]}) s))
      as (_&_&E&_).
    rewrite E. exact Hs.
  - cbn [step activeListener set_store]. destruct (activeListener s); [|exact Hs].
    unfold onActiveChanged. destruct (negb v).
    + pose proof (sameLife_revealAllPending
                    (set_store (set_active v (store s)) s)) as (_&_&E&_).
      rewrite E. exact Hs.
    + pose proof (sameLife_scheduleFlush
                    (set_store (set_active v (store s)) s)) as (_&_&E&_).
      rewrite E. exact Hs.
  - exact Hs.
  - exact Hs.
Qed.

(** X1. In every state a session can reach, the frame callback list holds
    at most one handle, and it is the one kept in [rafId] ([rafId = 0]
    exactly when nothing is requested). *)
Theorem single_frame_callback (s : State) :
  reachable s →
  frameCallbacks s = match rafId s with Z.pos h => {[h]} | _ => ∅ end ∧
  0 ≤ rafId s ∧ (size (frameCallbacks s) ≤ 1)%nat.
Proof.
  intros [_ [Hc Hr _ _] _ _ _ _]%SessionInv_reachable.
  split; [done|]. split; [done|]. rewrite Hc.
  destruct (rafId s); rewrite ?size_empty, ?size_singleton; lia.
Qed.

Lemma single_frame_callback_witness :
  reachable scenarioA_flush1 ∧ (size (frameCallbacks scenarioA_flush1) ≤ 1)%nat.
Proof.
  assert (reachable scenarioA_flush1) as Hr.
  { unfold scenarioA_flush1, scenarioA_enqueued.
    apply reachable_step, reachable_step, reachable_observing. }
  destruct (single_frame_callback _ Hr) as (_ & _ & H3).
  split; [exact Hr|exact H3].
Defined.

(** X2. In every reachable state a frame callback is requested exactly
    when elements are pending, which is exactly when some element is
    hidden, and the flushing flag says the same. *)
Theorem frame_requested_iff_backlog (s : State) :
  reachable s →
  (rafId s ≠ 0 ↔ pendingQueue s ≠ []) ∧
  (frameCallbacks s ≠ ∅ ↔ hiddenNodes s ≠ ∅) ∧
  (isFlushing s = true ↔ pendingQueue s ≠ []).
Proof.
  intros Hinv%SessionInv_reachable.
  pose proof Hinv as [Hst [Hc Hr Hsch Hf] _ _ _ _].
  split; [done|]. split.
  - rewrite hiddenNodes_pendingSet by done. rewrite (inv_set s Hst), Hc.
    split.
    + intros H Hq. destruct (rafId s) eqn:E; [done| |done].
      assert (pendingQueue s ≠ []) as Hne by (by apply Hsch).
      destruct (pendingQueue s) as [|x q]; [done|].
      assert (x ∈ (∅ : gset Ref)) as Hx by (rewrite <- Hq; set_solver).
      by apply not_elem_of_empty in Hx.
    + intros H Hcb. apply H.
      destruct (decide (pendingQueue s = [])) as [->|Hne]; [done|].
      apply Hsch in Hne. destruct (rafId s); [done| |lia].
      assert (p ∈ (∅ : gset positive)) as Hx by (rewrite <- Hcb; set_solver).
      by apply not_elem_of_empty in Hx.
  - rewrite Hf, bool_decide_eq_true. done.
Qed.

Lemma frame_requested_iff_backlog_witness :
  reachable scenarioA_flush2 ∧
  (rafId scenarioA_flush2 ≠ 0 ↔ pendingQueue scenarioA_flush2 ≠ []).
Proof.
  assert (reachable scenarioA_flush2) as Hr.
  { unfold scenarioA_flush2, scenarioA_flush1, scenarioA_enqueued.
    apply reachable_step, reachable_step, reachable_step, reachable_observing. }
  split; [exact Hr|]. apply (frame_requested_iff_backlog _ Hr).
Defined.

Lemma stopped_or_inactive_idle_aux (s : State) :
  reachable s →
  (active (store s) = false → idleAndEmpty s) ∧
  (isStopped s = true →
   idleAndEmpty s ∧ observer s = false ∧ pollTimer s = false ∧
   startDelayTimer s = false ∧ activeListener s = false ∧ appMount s = false).
Proof.
  intros Hr. pose proof (SessionInv_reachable s Hr) as Hinv.
  pose proof (LifeInv_reachable s Hr) as [Hl _ _]. split.
  - intros Ha. apply idleAndEmpty_of_empty; [done|]. by apply (inv_inactive s).
  - intros Hs. destruct (Hl Hs) as (H1 & H2 & H3 & H4 & H5).
    split; [|done]. apply idleAndEmpty_of_empty; [done|].
    by apply (inv_unlistened s).
Qed.

(** X3. While the plugin is stopped, or switched off, a session holds
    nothing: no pending element, no hidden element, no requested frame.  A
    stopped session also has no observer, no timer, no listener and no root
    container. *)
Theorem stopped_or_inactive_is_idle (s : State) :
  reachable s →
  (active (store s) = false → idleAndEmpty s) ∧
  (isStopped s = true →
   idleAndEmpty s ∧ observer s = false ∧ pollTimer s = false ∧
   startDelayTimer s = false ∧ activeListener s = false ∧ appMount s = false).
Proof. apply stopped_or_inactive_idle_aux. Qed.

Lemma stopped_or_inactive_is_idle_witness :
  reachable (step EvStop scenarioA_flush1) ∧
  idleAndEmpty (step EvStop scenarioA_flush1).
Proof.
  assert (reachable (step EvStop scenarioA_flush1)) as Hr.
  { unfold scenarioA_flush1, scenarioA_enqueued.
    apply reachable_step, reachable_step, reachable_step, reachable_observing. }
  split; [exact Hr|].
  apply (proj2 (stopped_or_inactive_is_idle _ Hr)).
  apply isStopped_stop.
Defined.

(** X4. Teardown is final: after [stop], whatever the host still delivers
    (timer callbacks, mutation batches, frame callbacks, setting changes,
    further stops) the session stays stopped, with nothing pending, nothing
    hidden, no frame requested, no observer and no timer, until [start] is
    called again. *)
Theorem teardown_is_final (s : State) (evs : list Event) :
  reachable s →
  Forall (λ ev, ∀ ready, ev ≠ EvStart ready) evs →
  let t := run evs (step EvStop s) in
  isStopped t = true ∧ idleAndEmpty t ∧ observer t = false ∧
  startDelayTimer t = false ∧ pollTimer t = false.
Proof.
  intros Hr Hevs. cbv zeta.
  assert (∀ t, reachable t → isStopped t = true →
            reachable (run evs t) ∧ isStopped (run evs t) = true) as Hrun.
  { induction Hevs as [|ev evs Hev _ IH]; intros t Ht Hs; [done|].
    apply IH; [by constructor|by apply isStopped_step]. }
  destruct (Hrun (step EvStop s)) as [Hr' Hs'];
    [by constructor|apply isStopped_stop|].
  destruct (proj2 (stopped_or_inactive_idle_aux _ Hr') Hs')
    as (H1 & H2 & H3 & H4 & _).
  done.
Qed.

Lemma teardown_is_final_witness :
  let t := run [EvStartDelay; EvPoll true;
                EvMutations [mkMutation [div 7]]; EvSetActive true]
             (step EvStop scenarioA_flush1) in
  reachable scenarioA_flush1 ∧ idleAndEmpty t ∧ observer t = false.
Proof.
  cbv zeta.
  assert (reachable scenarioA_flush1) as Hr.
  { unfold scenarioA_flush1, scenarioA_enqueued.
    apply reachable_step, reachable_step, reachable_observing. }
  split; [exact Hr|].
  refine (let H := teardown_is_final scenarioA_flush1 _ Hr _ in
          conj (proj1 (proj2 H)) (proj1 (proj2 (proj2 H)))).
  repeat constructor; discriminate.
Defined.

(** X5. The observer is connected only in a session that has been started
    and not stopped, whose [active] listener is registered and whose root
    container has been found. *)
Theorem observer_requires_running_session (s : State) :
  reachable s → observer s = true →
  isStopped s = false ∧ activeListener s = true ∧ appMount s = true.
Proof.
  intros Hr Ho. pose proof (SessionInv_reachable s Hr) as Hinv.
  pose proof (LifeInv_reachable s Hr) as [H1 H2 _].
  split; [|split].
  - destruct (isStopped s); [|done]. destruct (H1 eq_refl) as [? _]. congruence.
  - apply (inv_listened s Hinv). auto.
  - by apply H2.
Qed.

Lemma observer_requires_running_session_witness :
  reachable (observing defaultSettings) ∧
  appMount (observing defaultSettings) = true.
Proof.
  split; [apply reachable_observing|].
  apply (observer_requires_running_session _ (reachable_observing _)).
  vm_compute. reflexivity.
Defined.

(** ** Starting *)

Lemma poll_not_ready s :
  isStopped s = false → step (EvPoll false) s = s.
Proof.
  intros Hs. simpl. destruct (pollTimer s); [|done].
  unfold pollElapsed. by rewrite Hs.
Qed.

Lemma polls_not_ready k s :
  isStopped s = false → run (repeat (EvPoll false) k) s = s.
Proof.
  intros Hs. induction k as [|k IH]; [done|].
  change (run (repeat (EvPoll false) (S k)) s)
    with (run (repeat (EvPoll false) k) (step (EvPoll false) s)).
  by rewrite poll_not_ready.
Qed.

(** X6. Starting connects the observer, in any state: when the root
    container is populated at [start], the start-delay callback connects
    it; when it is not, any number of failed polls change nothing and the
    first successful poll followed by the start-delay callback connects it.
    [start] alone never connects it: the delay is always waited for. *)
Theorem start_connects_observer (s : State) (k : nat) :
  observer (run [EvStart true; EvStartDelay] s) = true ∧
  observer (run (EvStart false :: repeat (EvPoll false) k
                   ++ [EvPoll true; EvStartDelay]) s) = true ∧
  (∀ ready, observer (step (EvStart ready) s) = observer s).
Proof.
  assert (∀ ready, isStopped (step (EvStart ready) s) = false ∧
                   observer (step (EvStart ready) s) = observer s ∧
                   (ready = true →
                    startDelayTimer (step (EvStart ready) s) = true ∧
                    appMount (step (EvStart ready) s) = true) ∧
                   (ready = false → pollTimer (step (EvStart ready) s) = true))
    as Hstart.
  { intros ready. simpl.
    unfold start, registerSettingsListeners, waitForAppMount, isAppMountReady,
      onAppMountReady, scheduleThrottleStart. simpl.
    destruct (bool_decide _); simpl; destruct ready; simpl;
      try (destruct (pollTimer s) eqn:Hp; simpl); repeat split; try done. }
  assert (∀ t, isStopped t = false → startDelayTimer t = true →
               appMount t = true → observer (step EvStartDelay t) = true)
    as Hdelay.
  { intros t Hs Ht Ha. simpl. rewrite Ht. unfold startDelayElapsed, startObserver.
    simpl. rewrite Hs, Ha. simpl. by destruct (observer t) eqn:Ho. }
  split; [|split].
  - destruct (Hstart true) as (H1 & _ & H3 & _). destruct (H3 eq_refl).
    change (run [EvStart true; EvStartDelay] s)
      with (step EvStartDelay (step (EvStart true) s)).
    by apply Hdelay.
  - destruct (Hstart false) as (H1 & _ & _ & H4). specialize (H4 eq_refl).
    change (run (EvStart false :: repeat (EvPoll false) k
                   ++ [EvPoll true; EvStartDelay]) s)
      with (run (repeat (EvPoll false) k ++ [EvPoll true; EvStartDelay])
              (step (EvStart false) s)).
    unfold run. rewrite foldl_app. fold (run (repeat (EvPoll false) k)
                                          (step (EvStart false) s)).
    rewrite polls_not_ready by done.
    set (t := step (EvStart false) s) in *.
    change (foldl (λ acc ev, step ev acc) t [EvPoll true; EvStartDelay])
      with (step EvStartDelay (step (EvPoll true) t)).
    assert (isStopped (step (EvPoll true) t) = false ∧
            startDelayTimer (step (EvPoll true) t) = true ∧
            appMount (step (EvPoll true) t) = true) as (G1 & G2 & G3).
    { simpl. rewrite H4. unfold pollElapsed, isAppMountReady, onAppMountReady,
        scheduleThrottleStart. rewrite H1. simpl. rewrite H1. done. }
    by apply Hdelay.
  - intros ready. by destruct (Hstart ready) as (_ & H2 & _).
Qed.

(** ** Draining to the end *)

(** The host runs the frame callback that is requested, if there is one. *)
Definition nextFrame (clock : nat → Q) (s : State) : State :=
  match rafId s with
  | Z.pos handle => step (EvFrame handle clock) s
  | _ => s
  end.

Definition runFrames (clocks : list (nat → Q)) (s : State) : State :=
  foldl (λ acc clock, nextFrame clock acc) s clocks.

Lemma nextFrame_shorter clock s :
  reachable s →
  reachable (nextFrame clock s) ∧
  (length (pendingQueue (nextFrame clock s)) ≤ pred (length (pendingQueue s)))%nat.
Proof.
  intros Hr. pose proof (SessionInv_reachable s Hr) as Hinv.
  pose proof (SessionInv_MidInv s Hinv) as [Hst Hc _ Hsch _ Hp _].
  unfold nextFrame. destruct (rafId s) as [|h|h] eqn:E.
  - split; [done|]. destruct (decide (pendingQueue s = [])) as [->|Hne]; [done|].
    apply (inv_scheduled s (inv_frame s Hinv)) in Hne. congruence.
  - split; [by constructor|].
    assert (pendingQueue s ≠ [] ∧ active (store s) = true) as [Hq Ha].
    { destruct Hsch as [Hq _]; [done|]. split; [done|]. by destruct (Hp Hq). }
    simpl. rewrite bool_decide_eq_true_2 by (rewrite Hc; set_solver).
    destruct (flushQueue_spec clock
                (set_frameCallbacks (frameCallbacks s ∖ {[h]}) s) Ha Hq)
      as (revealed & Hne & H1 & _).
    cbv zeta in H1. simpl in H1. rewrite H1, length_app.
    destruct revealed; [done|]. simpl. lia.
  - pose proof (inv_rafId s (inv_frame s Hinv)). lia.
Qed.

(** X7. Nothing stays hidden: if the host keeps running the requested frame
    callback and no further mutation arrives, a backlog of [n] elements is
    gone after at most [n] frames, whatever the settings and the clock
    readings are, and no callback is left requested. *)
Theorem frames_drain_backlog (clocks : list (nat → Q)) (s : State) :
  reachable s →
  (length (pendingQueue s) ≤ length clocks)%nat →
  idleAndEmpty (runFrames clocks s).
Proof.
  revert s. induction clocks as [|clock clocks IH]; intros s Hr Hlen.
  - apply idleAndEmpty_of_empty; [by apply SessionInv_reachable|].
    change (pendingQueue s = []). apply nil_length_inv. simpl in Hlen. lia.
  - destruct (nextFrame_shorter clock s Hr) as [Hr' Hlen'].
    apply (IH (nextFrame clock s) Hr'). simpl in Hlen. lia.
Qed.

Lemma frames_drain_backlog_witness :
  reachable scenarioA_enqueued ∧
  idleAndEmpty
    (runFrames (repeat frozenClock (length (pendingQueue scenarioA_enqueued)))
       scenarioA_enqueued).
Proof.
  assert (reachable scenarioA_enqueued) as Hr.
  { unfold scenarioA_enqueued. apply reachable_step, reachable_observing. }
  split; [exact Hr|].
  apply (frames_drain_backlog _ _ Hr). by rewrite repeat_length.
Defined.

(** ** Scheduling *)


(** ** Batches *)

Lemma active_handleMutations mutations s :
  active (store (handleMutations mutations s)) = active (store s).
Proof. by pose proof (sameLife_handleMutations mutations s) as (-> & _). Qed.

(** X9. Mutation batches compose: handling two batches one after the other
    is handling their concatenation, and only the added nodes count, in
    order, not how they are grouped into records.  An empty batch changes
    nothing. *)
Theorem handleMutations_compose (s : State) (ms1 ms2 : list MutationRecord) :
  handleMutations (ms1 ++ ms2) s = handleMutations ms2 (handleMutations ms1 s) ∧
  handleMutations ms1 s =
    handleMutations [mkMutation (concat (map addedNodes ms1))] s ∧
  handleMutations [] s = s.
Proof.
  split; [|split].
  - rewrite (handleMutations_flat ms2), active_handleMutations.
    rewrite !handleMutations_flat.
    destruct (negb _); [done|]. by rewrite map_app, concat_app, foldl_app.
  - rewrite !handleMutations_flat. destruct (negb _); [done|].
    cbn [map concat addedNodes]. by rewrite app_nil_r.
  - unfold handleMutations. by destruct (negb _).
Qed.

Lemma batch_below_limit_aux mutations s :
  active (store s) = true →
  (length (pendingQueue s)
   + length (concat (map intakeOf (concat (map addedNodes mutations))))
   < QUEUE_LIMIT)%nat →
  handleMutations mutations s =
    match concat (map intakeOf (concat (map addedNodes mutations))) with
    | [] => s
    | _ => scheduleFlush
             (enqueueAll (concat (map intakeOf (concat (map addedNodes mutations)))) s)
    end.
Proof.
  intros Ha Hlen. rewrite handleMutations_flat, Ha. simpl.
  by apply intake_below.
Qed.

(** X10. A batch that keeps the queue under [QUEUE_LIMIT] amounts to
    enqueueing every element its walks return (none for text nodes and for
    nodes under the ignore marker), in the order of the batch and in
    document order inside a subtree, and then calling [scheduleFlush] once.
    When these references are distinct and not yet pending, they are
    appended to the queue in that order and all of them are hidden. *)
Theorem batch_below_limit (mutations : list MutationRecord) (s : State) :
  active (store s) = true →
  (length (pendingQueue s)
   + length (concat (map intakeOf (concat (map addedNodes mutations))))
   < QUEUE_LIMIT)%nat →
  let refs := concat (map intakeOf (concat (map addedNodes mutations))) in
  handleMutations mutations s =
    match refs with
    | [] => s
    | _ => scheduleFlush (enqueueAll refs s)
    end ∧
  (NoDup refs → (∀ x, x ∈ refs → x ∉ pendingSet s) →
   pendingQueue (handleMutations mutations s) = pendingQueue s ++ refs ∧
   ∀ x, x ∈ refs → hidden (handleMutations mutations s) x).
Proof.
  intros Ha Hlen. cbv zeta.
  pose proof (batch_below_limit_aux mutations s Ha Hlen) as E.
  split; [exact E|]. intros Hnd Hfresh. rewrite E.
  destruct (enqueueAll_fresh _ s Hnd Hfresh) as (H1 & _ & H3).
  destruct (concat (map intakeOf (concat (map addedNodes mutations))))
    as [|x l] eqn:El.
  - split; [by rewrite app_nil_r|]. intros y Hy. by apply elem_of_nil in Hy.
  - pose proof (sameStore_scheduleFlush (enqueueAll (x :: l) s)) as (Q1 & _ & Q3).
    split; [by rewrite Q1|]. intros y Hy. unfold hidden. rewrite Q3.
    by apply H3.
Qed.

Lemma batch_below_limit_witness :
  let s := observing defaultSettings in
  let batch := [mkMutation [div 1; div 2]; mkMutation [div 3]] in
  active (store s) = true ∧
  handleMutations batch s = scheduleFlush (enqueueAll [1; 2; 3]%positive s).
Proof.
  cbv zeta.
  assert (active (store (observing defaultSettings)) = true) as Ha
    by (vm_compute; reflexivity).
  assert (concat (map intakeOf
                    (concat (map addedNodes
                               [mkMutation [div 1; div 2]; mkMutation [div 3]])))
          = [1; 2; 3]%positive) as E by (vm_compute; reflexivity).
  split; [exact Ha|].
  assert (length (pendingQueue (observing defaultSettings))
          + length (concat (map intakeOf
                              (concat (map addedNodes
                                 [mkMutation [div 1; div 2]; mkMutation [div 3]])))) <
          QUEUE_LIMIT)%nat as Hlen.
  { rewrite E. vm_compute. lia. }
  pose proof (proj1 (batch_below_limit
                       [mkMutation [div 1; div 2]; mkMutation [div 3]]
                       (observing defaultSettings) Ha Hlen)) as H.
  rewrite E in H. exact H.
Defined.



(** ** Hiding and revealing one element *)

Lemma token_remove_add tok l : tok ∉ l → token_remove tok (token_add tok l) = l.
Proof.
  intros H. unfold token_add. rewrite bool_decide_eq_false_2 by done.
  unfold token_remove. rewrite filter_app, filter_cons, decide_False by tauto.
  rewrite filter_nil, app_nil_r. by apply token_remove_absent.
Qed.

(** X12. Enqueueing an element that is not pending and then draining gives
    the element back and puts the queue and the set where they were; the
    element's class list is as before, with every other class in its place,
    and no other element's class list is touched. *)
Theorem enqueue_then_drain (el : Ref) (s : State) :
  el ∉ pendingSet s → ¬ hidden s el →
  ∃ s', drainNext (enqueueElement el s) = Some (el, s') ∧
        pendingQueue s' = pendingQueue s ∧
        pendingSet s' = pendingSet s ∧
        ∀ x, classListOf (classes s') x = classListOf (classes s) x.
Proof.
  intros Hel Hh. rewrite enqueueElement_fresh by done.
  eexists. split.
  - apply drainNext_Some. exists (pendingQueue s). split; reflexivity.
  - cbn [pendingQueue pendingSet classes reveal set_classes set_pendingSet
           set_pendingQueue].
    split; [reflexivity|]. split; [set_solver|].
    intros x. rewrite classListOf_remove, classListOf_add.
    destruct (decide (el = x)) as [->|Hne].
    + rewrite decide_True by done. by apply token_remove_add.
    + rewrite classListOf_add. by rewrite decide_False.
Qed.

Lemma enqueue_then_drain_witness :
  let s := initialState defaultSettings "CustomRender" {[7%positive := ["message"; "cozy"]]} in
  ∃ s', drainNext (enqueueElement 7 s) = Some (7%positive, s') ∧
        classListOf (classes s') 7 = ["message"; "cozy"].
Proof.
  cbv zeta.
  destruct (enqueue_then_drain 7
              (initialState defaultSettings "CustomRender"
                 {[7%positive := ["message"; "cozy"]]}))
    as (s' & H1 & _ & _ & H4).
  - vm_compute. intros H. discriminate.
  - unfold hidden. refine (bool_decide_eq_false_1 _ _). vm_compute. reflexivity.
  - exists s'. split; [exact H1|]. rewrite H4. vm_compute. reflexivity.
Defined.

(** ** The walk *)

(** Induction on subtrees, with the hypothesis for every child. *)
Fixpoint Node_induction (P : Node → Prop)
    (HOther : ∀ r, P (Other r))
    (HElement : ∀ e children, Forall P children → P (Element e children))
    (n : Node) : P n :=
  match n with
  | Other r => HOther r
  | Element e children =>
      HElement e children
        ((fix go (l : list Node) : Forall P l :=
            match l with
            | [] => @List.Forall_nil Node P
            | c :: l' =>
                @List.Forall_cons Node P c l'
                  (Node_induction P HOther HElement c) (go l')
            end) children)
  end.

(** Every element of a subtree, in document order. *)
Fixpoint elementsOf (n : Node) : list Elem :=
  match n with
  | Other _ => []
  | Element e children => e :: flat_map elementsOf children
  end.

Lemma acceptNode_accept e :
  acceptNode e = FILTER_ACCEPT ↔
  shouldSkipElement e = false ∧ hasAttribute IGNORE_ATTR e = false.
Proof.
  unfold acceptNode. destruct (shouldSkipElement e), (hasAttribute IGNORE_ATTR e);
    split; (done || intros [? ?]; done).
Qed.

Lemma nextNodes_sublist n : nextNodes n `sublist_of` elementsOf n.
Proof.
  induction n as [r|e children IH] using Node_induction; [constructor|].
  assert (flat_map nextNodes children `sublist_of` flat_map elementsOf children)
    as Hc.
  { induction IH as [|c l Hc _ IHl]; [constructor|]. simpl.
    by apply sublist_app. }
  simpl. destruct (acceptNode e).
  - by apply sublist_skip.
  - apply sublist_nil_l.
  - by apply sublist_cons.
Qed.

Lemma nextNodes_accepted n : Forall (λ e, acceptNode e = FILTER_ACCEPT) (nextNodes n).
Proof.
  induction n as [r|e children IH] using Node_induction; [constructor|].
  assert (Forall (λ e, acceptNode e = FILTER_ACCEPT) (flat_map nextNodes children))
    as Hc.
  { induction IH as [|c l Hc _ IHl]; [constructor|]. simpl.
    by apply Forall_app. }
  simpl. destruct (acceptNode e) eqn:E; [|constructor|done].
  by constructor.
Qed.

Lemma flat_map_sublist {A B} (f g : A → list B) l :
  Forall (λ x, f x `sublist_of` g x) l →
  flat_map f l `sublist_of` flat_map g l.
Proof.
  induction 1 as [|x l Hx _ IH]; [constructor|]. simpl. by apply sublist_app.
Qed.

Lemma flat_map_Forall {A B} (P : B → Prop) (f : A → list B) l :
  Forall (λ x, Forall P (f x)) l → Forall P (flat_map f l).
Proof.
  induction 1 as [|x l Hx _ IH]; [constructor|]. simpl. by apply Forall_app.
Qed.

(** X13. What the walk returns below the root is a subsequence, in
    document order, of the elements of the inserted subtree, and every
    element in it passes the filter: it is neither of an excluded type nor
    the root container, and it does not carry the ignore marker. *)
Theorem walk_returns_accepted_elements (children : list Node) :
  flat_map nextNodes children `sublist_of` flat_map elementsOf children ∧
  Forall (λ e, shouldSkipElement e = false ∧ hasAttribute IGNORE_ATTR e = false)
    (flat_map nextNodes children).
Proof.
  split.
  - apply flat_map_sublist, Forall_forall. intros n _. apply nextNodes_sublist.
  - apply flat_map_Forall, Forall_forall. intros n _.
    eapply Forall_impl; [apply nextNodes_accepted|].
    intros e He. by apply acceptNode_accept.
Qed.

Lemma nextNodes_plain n :
  Forall (λ e, acceptNode e = FILTER_ACCEPT) (elementsOf n) →
  nextNodes n = elementsOf n.
Proof.
  induction n as [r|e children IH] using Node_induction; [done|].
  simpl. intros [He Hc]%Forall_cons. rewrite He. f_equal.
  induction IH as [|c l Hcl _ IHl]; [done|]. simpl in Hc |- *.
  apply Forall_app in Hc as [Hc1 Hc2]. by rewrite Hcl, IHl.
Qed.

(** X14. When no element below the root of an inserted subtree is excluded
    or carries the ignore marker, the walk returns the root and then every
    element of the subtree, in document order; text and comment nodes are
    passed over. *)
Theorem walk_of_plain_subtree (root : Elem) (children : list Node) :
  Forall (λ e, shouldSkipElement e = false ∧ hasAttribute IGNORE_ATTR e = false)
    (flat_map elementsOf children) →
  walk root children = elementsOf (Element root children).
Proof.
  intros H. unfold walk. simpl. f_equal.
  induction children as [|c l IH]; [done|]. simpl in H |- *.
  apply Forall_app in H as [H1 H2]. rewrite IH by done. f_equal.
  apply nextNodes_plain. eapply Forall_impl; [exact H1|].
  intros e He. by apply acceptNode_accept.
Qed.

Lemma walk_of_plain_subtree_witness :
  let a := mkElem 1 "DIV" "" [] in
  let b := mkElem 2 "SPAN" "" ["class"] in
  let c := mkElem 3 "IMG" "" [] in
  walk a [Element b [Other 4; Element c []]; Other 5] = [a; b; c].
Proof.
  cbv zeta.
  apply (walk_of_plain_subtree (mkElem 1 "DIV" "" [])
           [Element (mkElem 2 "SPAN" "" ["class"])
              [Other 4; Element (mkElem 3 "IMG" "" []) []]; Other 5]).
  repeat constructor.
Defined.

(** ** Who hides *)

Lemma hidden_same_classes s s' el :
  classes s' = classes s → hidden s' el → hidden s el.
Proof. unfold hidden. by intros ->. Qed.

Lemma hidden_enqueueElement r s el :
  hidden (enqueueElement r s) el → hidden s el ∨ el = r.
Proof.
  unfold enqueueElement. destruct (bool_decide _); [auto|].
  unfold hidden. cbn [classes set_pendingQueue set_pendingSet set_classes].
  rewrite classListOf_add. destruct (decide (r = el)) as [->|]; auto.
Qed.

Lemma hidden_enqueueAll l s el :
  hidden (enqueueAll l s) el → hidden s el ∨ el ∈ l.
Proof.
  revert s. induction l as [|r l IH]; intros s H; [auto|].
  change (enqueueAll (r :: l) s) with (enqueueAll l (enqueueElement r s)) in H.
  destruct (IH _ H) as [H'|H']; [|right; by apply list_elem_of_further].
  destruct (hidden_enqueueElement _ _ _ H') as [?| ->]; [auto|].
  right. apply list_elem_of_here.
Qed.

Lemma hidden_revealAllPending s el :
  hidden (revealAllPending s) el → hidden s el.
Proof.
  rewrite revealAllPending_eq. intros H.
  apply (hidden_revealClasses (elements (pendingSet s)) s) in H; [tauto|done].
Qed.

Lemma hidden_scheduleFlush s el : hidden (scheduleFlush s) el → hidden s el.
Proof. apply hidden_same_classes, sameStore_scheduleFlush. Qed.

Lemma hidden_setFlushing next s el : hidden (setFlushing next s) el → hidden s el.
Proof. apply hidden_same_classes, sameStore_setFlushing. Qed.

Lemma hidden_flushQueue clock s el : hidden (flushQueue clock s) el → hidden s el.
Proof.
  destruct (active (store s)) eqn:Ha.
  - destruct (decide (pendingQueue s = [])) as [Hq|Hq].
    + unfold flushQueue. cbn [store set_rafId pendingQueue]. rewrite Ha, Hq.
      cbn [negb length]. rewrite bool_decide_eq_true_2 by done.
      intros H%hidden_setFlushing. exact H.
    + destruct (flushQueue_spec clock s Ha Hq) as (revealed & _ & _ & _ & H3 & _).
      cbv zeta in H3. intros H.
      apply (hidden_revealClasses _ s _ el H3) in H. tauto.
  - unfold flushQueue. cbn [store set_rafId]. rewrite Ha. cbn [negb].
    intros H%hidden_revealAllPending. exact H.
Qed.

Lemma hidden_enqueueTree n s el :
  hidden (enqueueTree n s) el → hidden s el ∨ el ∈ intakeOf n.
Proof.
  unfold enqueueTree, intakeOf. destruct (negb _); [auto|].
  destruct (node n) as [root children|]; [|auto].
  destruct (closest _ _ _); [auto|].
  rewrite enqueueWalk_enqueueAll. destruct (bool_decide _).
  - intros H%hidden_revealAllPending. by apply hidden_enqueueAll.
  - intros H%hidden_scheduleFlush. by apply hidden_enqueueAll.
Qed.

Lemma hidden_enqueueTrees nodes s el :
  hidden (foldl (λ acc n, enqueueTree n acc) s nodes) el →
  hidden s el ∨ el ∈ concat (map intakeOf nodes).
Proof.
  revert s. induction nodes as [|n nodes IH]; intros s H; [auto|].
  cbn [foldl] in H. cbn [map concat]. rewrite elem_of_app.
  destruct (IH _ H) as [H'|H']; [|auto].
  destruct (hidden_enqueueTree _ _ _ H'); auto.
Qed.

Lemma hidden_handleMutations mutations s el :
  hidden (handleMutations mutations s) el →
  hidden s el ∨ el ∈ concat (map intakeOf (concat (map addedNodes mutations))).
Proof.
  rewrite handleMutations_flat. destruct (negb _); [auto|].
  apply hidden_enqueueTrees.
Qed.

Lemma classes_start ready s : classes (start ready s) = classes s.
Proof.
  unfold start, registerSettingsListeners, waitForAppMount, isAppMountReady,
    onAppMountReady, scheduleThrottleStart.
  cbn [isStopped set_isStopped set_activeListener pluginName].
  destruct (bool_decide _); destruct ready; cbn; try reflexivity;
    destruct (pollTimer s); reflexivity.
Qed.

Lemma classes_pollElapsed ready s : classes (pollElapsed ready s) = classes s.
Proof.
  unfold pollElapsed, isAppMountReady, onAppMountReady, scheduleThrottleStart.
  destruct (isStopped s) eqn:E; [reflexivity|].
  destruct ready; cbn; rewrite ?E; reflexivity.
Qed.

Lemma classes_startDelayElapsed s : classes (startDelayElapsed s) = classes s.
Proof.
  unfold startDelayElapsed, startObserver. cbn [isStopped set_startDelayTimer].
  destruct (isStopped s); [reflexivity|].
  destruct (negb _ || _); reflexivity.
Qed.

Lemma classes_cleared (t : State) :
  classes (set_appMount false (set_startDelayTimer false (set_pollTimer false t)))
  = classes t.
Proof. reflexivity. Qed.

Lemma classes_unregistered (t : State) :
  classes (stopObserver (unregisterSettingsListeners (set_isStopped true t)))
  = classes t.
Proof.
  unfold stopObserver, unregisterSettingsListeners.
  destruct (bool_decide _); reflexivity.
Qed.

Lemma hidden_stop s el : hidden (stop s) el → hidden s el.
Proof.
  unfold stop. intros H.
  apply (hidden_same_classes _ _ _ (classes_cleared _)) in H.
  apply hidden_revealAllPending in H.
  apply (hidden_same_classes _ _ _ (classes_unregistered _)) in H. exact H.
Qed.

Lemma only_intake_hides_aux ev s el :
  hidden (step ev s) el →
  hidden s el ∨
  ∃ mutations, ev = EvMutations mutations ∧
    el ∈ concat (map intakeOf (concat (map addedNodes mutations))).
Proof.
  destruct ev as [ready|ready| | |ms|h clock|v|v|v]; cbn [step]; intros H.
  - left. revert H. apply hidden_same_classes, classes_start.
  - left. destruct (pollTimer s); [|exact H].
    revert H. apply hidden_same_classes, classes_pollElapsed.
  - left. destruct (startDelayTimer s); [|exact H].
    revert H. apply hidden_same_classes, classes_startDelayElapsed.
  - left. by apply hidden_stop.
  - destruct (observer s); [|auto].
    destruct (hidden_handleMutations _ _ _ H); [auto|]. right. by exists ms.
  - left. destruct (bool_decide _); [|exact H].
    apply hidden_flushQueue in H. exact H.
  - left. cbn [activeListener set_store] in H.
    destruct (activeListener s); [|exact H]. unfold onActiveChanged in H.
    destruct (negb v).
    + apply hidden_revealAllPending in H. exact H.
    + apply hidden_scheduleFlush in H. exact H.
  - left. exact H.
  - left. exact H.
Qed.

(** X15. Only a mutation batch hides anything.  An element that is hidden
    after an event was hidden before it, unless the event is a mutation
    batch and the element is one that the walks of that batch return.  Starting, stopping, timers, frame callbacks and
    setting changes never add the marker to any element. *)
Theorem only_intake_hides (ev : Event) (s : State) (el : Ref) :
  hidden (step ev s) el →
  hidden s el ∨
  ∃ mutations, ev = EvMutations mutations ∧
    el ∈ concat (map intakeOf (concat (map addedNodes mutations))).
Proof. apply only_intake_hides_aux. Qed.

Lemma only_intake_hides_witness :
  let s := observing defaultSettings in
  let ev := EvMutations [mkMutation [div 1; div 2]] in
  hidden (step ev s) 2 ∧
  (hidden s 2 ∨
   ∃ mutations, ev = EvMutations mutations ∧
     2%positive ∈ concat (map intakeOf (concat (map addedNodes mutations)))).
Proof.
  cbv zeta.
  assert (hidden (step (EvMutations [mkMutation [div 1; div 2]])
                    (observing defaultSettings)) 2) as H.
  { unfold hidden. refine (bool_decide_eq_true_1 _ _). vm_compute. reflexivity. }
  split; [exact H|]. exact (only_intake_hides _ _ _ H).
Defined.

(** * The status indicator

    The indicator is a [<button>] the plugin keeps in the toolbar.  It only
    reads [settings.store] and [isFlushing], so it is modelled beside the
    scheduler state: its functions take the scheduler state they read and
    the current value of [indicatorEl].  Where the source asks the document
    ([findIndicatorContainer] runs [querySelector] and [closest]), the
    answer is an argument. *)

Module Indicator.

Definition INDICATOR_CLASS : string := "dom-vsync-indicator".
Definition INDICATOR_ENABLED_CLASS : string := "dom-vsync-enabled".
Definition INDICATOR_DISABLED_CLASS : string := "dom-vsync-disabled".
Definition INDICATOR_FLUSHING_CLASS : string := "dom-vsync-flushing".
Definition INDICATOR_ID : string := "dom-vsync-indicator".

(** The button: its reflected properties, the attributes set with
    [setAttribute], and where it is attached ([nextSibling] is the element
    it was inserted before, if any). *)
Record Button : Type := mkButton {
  buttonId : string;
  buttonType : string;
  classList : list string;
  buttonAttributes : gmap string string;
  title : string;
  parentElement : option Ref;
  nextSibling : option Ref
}.

(** What [findIndicatorContainer] returns when it finds a toolbar. *)
Record Target : Type := mkTarget {
  container : Ref;
  before : option Ref
}.

(** [classList.toggle(token, force)]. *)
Definition toggle (token : string) (force : bool) (l : list string) : list string :=
  if force then token_add token l else token_remove token l.

Definition updateIndicatorState (s : State) (indicatorEl : option Button) :
    option Button :=
  match indicatorEl with
  | None => None
  | Some b =>
      let active := active (store s) in
      let cl := toggle INDICATOR_DISABLED_CLASS (negb active) (classList b) in
      let cl := toggle INDICATOR_ENABLED_CLASS (active && negb (isFlushing s)) cl in
      let cl := toggle INDICATOR_FLUSHING_CLASS (active && isFlushing s) cl in
      let label :=
        if negb active then "DOM VSync disabled"
        else if isFlushing s then "DOM VSync enabled (flushing)"
        else "DOM VSync enabled" in
      Some (mkButton (buttonId b) (buttonType b) cl
              (<["aria-label" := label]> (buttonAttributes b)) label
              (parentElement b) (nextSibling b))
  end.

(** [findToolbarItem(element, toolbar)].  [chain] is the element followed by
    its ancestors, nearest first, so the parent of an entry is the next
    entry, and the last entry has no parent. *)
Fixpoint findToolbarItem (chain : list Ref) (toolbar : Ref) : option Ref :=
  match chain with
  | [] => None
  | current :: above =>
      if bool_decide (head above = Some toolbar) then Some current
      else findToolbarItem above toolbar
  end.

Definition removeIndicator (indicatorEl : option Button) : option Button := None.

(** The button [ensureIndicator] creates when there is none.  Its two event
    listeners (which stop propagation and flip [settings.store.active] on a
    click) are not part of the button's state; a click is the scheduler
    event [EvSetActive]. *)
Definition createButton : Button :=
  mkButton INDICATOR_ID "button" [INDICATOR_CLASS] {[IGNORE_ATTR := "true"]} ""
    None None.

Definition ensureIndicator (s : State) (target : option Target)
    (indicatorEl : option Button) : option Button :=
  if negb (indicator (store s)) then removeIndicator indicatorEl
  else match target with
  | None => indicatorEl
  | Some t =>
      let b := match indicatorEl with Some b => b | None => createButton end in
      let b :=
        if bool_decide (parentElement b ≠ Some (container t))
        then mkButton (buttonId b) (buttonType b) (classList b)
               (buttonAttributes b) (title b) (Some (container t)) (before t)
        else b in
      updateIndicatorState s (Some b)
  end.

(** ** Lemmas *)

Lemma toggle_elem token force l t :
  t ∈ toggle token force l ↔
  (t = token ∧ force = true) ∨ (t ≠ token ∧ t ∈ l) ∨ (force = true ∧ t ∈ l).
Proof.
  unfold toggle. destruct force.
  - rewrite token_add_elem. destruct (decide (t = token)); naive_solver.
  - rewrite token_remove_elem. naive_solver.
Qed.

(** The class list [updateIndicatorState] leaves. *)
Definition stateClasses (s : State) (l : list string) : list string :=
  toggle INDICATOR_FLUSHING_CLASS (active (store s) && isFlushing s)
    (toggle INDICATOR_ENABLED_CLASS (active (store s) && negb (isFlushing s))
       (toggle INDICATOR_DISABLED_CLASS (negb (active (store s))) l)).

Lemma stateClasses_elem s l t :
  t ∈ stateClasses s l ↔
  (t = INDICATOR_DISABLED_CLASS ∧ active (store s) = false) ∨
  (t = INDICATOR_ENABLED_CLASS ∧ active (store s) = true ∧ isFlushing s = false) ∨
  (t = INDICATOR_FLUSHING_CLASS ∧ active (store s) = true ∧ isFlushing s = true) ∨
  (t ≠ INDICATOR_DISABLED_CLASS ∧ t ≠ INDICATOR_ENABLED_CLASS ∧
   t ≠ INDICATOR_FLUSHING_CLASS ∧ t ∈ l).
Proof.
  unfold stateClasses. rewrite !toggle_elem.
  assert (INDICATOR_DISABLED_CLASS ≠ INDICATOR_ENABLED_CLASS) by done.
  assert (INDICATOR_DISABLED_CLASS ≠ INDICATOR_FLUSHING_CLASS) by done.
  assert (INDICATOR_ENABLED_CLASS ≠ INDICATOR_FLUSHING_CLASS) by done.
  destruct (decide (t = INDICATOR_DISABLED_CLASS)) as [->|?];
    [|destruct (decide (t = INDICATOR_ENABLED_CLASS)) as [->|?];
      [|destruct (decide (t = INDICATOR_FLUSHING_CLASS)) as [->|?]]];
    destruct (active (store s)), (isFlushing s); simpl;
    (split; intros Ht);
    repeat match goal with
    | H : _ ∨ _ |- _ => destruct H
    | H : _ ∧ _ |- _ => destruct H
    end; try discriminate; try congruence; tauto.
Qed.

Lemma toggle_settled token force l :
  (token ∈ l ↔ force = true) → toggle token force l = l.
Proof.
  intros H. unfold toggle. destruct force.
  - unfold token_add. rewrite bool_decide_eq_true_2; [done|]. apply H. done.
  - apply token_remove_absent. intros Hin. apply H in Hin. done.
Qed.

Lemma stateClasses_idemp s l : stateClasses s (stateClasses s l) = stateClasses s l.
Proof.
  assert (INDICATOR_DISABLED_CLASS ≠ INDICATOR_ENABLED_CLASS) by done.
  assert (INDICATOR_DISABLED_CLASS ≠ INDICATOR_FLUSHING_CLASS) by done.
  assert (INDICATOR_ENABLED_CLASS ≠ INDICATOR_FLUSHING_CLASS) by done.
  unfold stateClasses at 1.
  rewrite (toggle_settled INDICATOR_DISABLED_CLASS).
  2:{ rewrite stateClasses_elem.
      destruct (active (store s)), (isFlushing s); simpl; split; intros Ht;
        repeat match goal with
        | H : _ ∨ _ |- _ => destruct H
        | H : _ ∧ _ |- _ => destruct H
        end; try discriminate; try congruence; tauto. }
  rewrite (toggle_settled INDICATOR_ENABLED_CLASS).
  2:{ rewrite stateClasses_elem.
      destruct (active (store s)), (isFlushing s); simpl; split; intros Ht;
        repeat match goal with
        | H : _ ∨ _ |- _ => destruct H
        | H : _ ∧ _ |- _ => destruct H
        end; try discriminate; try congruence; tauto. }
  apply toggle_settled. rewrite stateClasses_elem.
  destruct (active (store s)), (isFlushing s); simpl; split; intros Ht;
    repeat match goal with
    | H : _ ∨ _ |- _ => destruct H
    | H : _ ∧ _ |- _ => destruct H
    end; try discriminate; try congruence; tauto.
Qed.

(** The one state class and the label that go with the scheduler state. *)
Definition stateClass (s : State) : string :=
  if negb (active (store s)) then INDICATOR_DISABLED_CLASS
  else if isFlushing s then INDICATOR_FLUSHING_CLASS
  else INDICATOR_ENABLED_CLASS.

Definition stateLabel (s : State) : string :=
  if negb (active (store s)) then "DOM VSync disabled"
  else if isFlushing s then "DOM VSync enabled (flushing)"
  else "DOM VSync enabled".

Definition isStateClass (t : string) : Prop :=
  t = INDICATOR_DISABLED_CLASS ∨ t = INDICATOR_ENABLED_CLASS ∨
  t = INDICATOR_FLUSHING_CLASS.

Lemma updateIndicatorState_eq s b :
  updateIndicatorState s (Some b) =
  Some (mkButton (buttonId b) (buttonType b) (stateClasses s (classList b))
          (<["aria-label" := stateLabel s]> (buttonAttributes b)) (stateLabel s)
          (parentElement b) (nextSibling b)).
Proof. reflexivity. Qed.

Lemma updateIndicatorState_idemp s b b' :
  updateIndicatorState s (Some b) = Some b' →
  updateIndicatorState s (Some b') = Some b'.
Proof.
  rewrite updateIndicatorState_eq. intros [= <-].
  rewrite updateIndicatorState_eq. cbn [buttonId buttonType classList
    buttonAttributes title parentElement nextSibling].
  rewrite stateClasses_idemp, insert_insert_eq. reflexivity.
Qed.

(** [indicatorEl] is only ever assigned a button made by [ensureIndicator],
    which marks it with the ignore attribute, or [null]. *)
Definition marked (indicatorEl : option Button) : Prop :=
  ∀ b, indicatorEl = Some b → buttonAttributes b !! IGNORE_ATTR = Some "true".

Lemma marked_updateIndicatorState s ind :
  marked ind → marked (updateIndicatorState s ind).
Proof.
  intros H b'. destruct ind as [b|]; [|discriminate].
  rewrite updateIndicatorState_eq. intros [= <-].
  cbn [buttonAttributes]. rewrite lookup_insert_ne by done. apply H. reflexivity.
Qed.

Lemma marked_ensureIndicator s tgt ind :
  marked ind → marked (ensureIndicator s tgt ind).
Proof.
  intros H. unfold ensureIndicator.
  destruct (negb (indicator (store s))); [discriminate|].
  destruct tgt as [t|]; [|exact H].
  apply marked_updateIndicatorState. intros b [= <-].
  destruct (bool_decide _); cbn [buttonAttributes];
    (destruct ind as [b0|]; [apply H; reflexivity | reflexivity]).
Qed.

Lemma ensureIndicator_new_attributes s tgt b :
  ensureIndicator s tgt None = Some b →
  dom (buttonAttributes b) = {[ IGNORE_ATTR; "aria-label" ]}.
Proof.
  unfold ensureIndicator. destruct (negb (indicator (store s))); [discriminate|].
  destruct tgt as [t|]; [|discriminate].
  rewrite updateIndicatorState_eq. intros [= <-]. cbn [buttonAttributes].
  rewrite dom_insert_L.
  rewrite dom_singleton_L. set_solver.
Qed.

(** A fresh session with the default settings, and a toolbar whose
    container is node 7, with nothing to insert the button before. *)
Definition freshState : State := initialState defaultSettings "CustomRender" ∅.
Definition toolbarEnd : Target := mkTarget 7%positive None.

(** ** Theorems *)

(** X16. [findToolbarItem] walks up from the element and returns the first
    node on the way whose parent is the toolbar, that is the child of the
    toolbar the element sits in; it returns [null] exactly when the toolbar
    is not a proper ancestor of the element. *)
Theorem findToolbarItem_first_child_of_toolbar (chain : list Ref) (toolbar : Ref) :
  match findToolbarItem chain toolbar with
  | Some item =>
      ∃ below above, chain = below ++ item :: toolbar :: above ∧
                     toolbar ∉ tail (below ++ [item])
  | None => toolbar ∉ tail chain
  end.
Proof.
  induction chain as [|c rest IH]; cbn [findToolbarItem].
  - cbn. apply not_elem_of_nil.
  - case_bool_decide as Hh.
    + destruct rest as [|p above]; [discriminate|]. injection Hh as ->.
      exists [], above. split; [reflexivity|]. cbn. apply not_elem_of_nil.
    + cbn [tail]. destruct (findToolbarItem rest toolbar) as [item|].
      * destruct IH as (below & above & -> & Hnot).
        exists (c :: below), above. split; [reflexivity|].
        cbn [app tail]. destruct below as [|b0 below]; cbn [app tail] in *.
        -- intros Hin. apply list_elem_of_singleton in Hin. subst.
           apply Hh. reflexivity.
        -- intros Hin. apply elem_of_cons in Hin as [->|Hin];
             [apply Hh; reflexivity | exact (Hnot Hin)].
      * destruct rest as [|p above]; [apply not_elem_of_nil|].
        cbn [tail] in IH. intros Hin. apply elem_of_cons in Hin as [->|Hin];
          [apply Hh; reflexivity | exact (IH Hin)].
Qed.

(** X17. After [updateIndicatorState] the button carries exactly one of the
    three state classes, the one of the current state (disabled when the
    setting is off, flushing while a flush is pending, enabled otherwise);
    every other class is left as it was; the title and the [aria-label] are
    the label of that state; and a second call changes nothing. *)
Theorem indicator_shows_one_state (s : State) (b : Button) :
  ∃ b', updateIndicatorState s (Some b) = Some b' ∧
    (∀ t, isStateClass t → (t ∈ classList b' ↔ t = stateClass s)) ∧
    (∀ t, ¬ isStateClass t → (t ∈ classList b' ↔ t ∈ classList b)) ∧
    title b' = stateLabel s ∧
    buttonAttributes b' !! "aria-label" = Some (stateLabel s) ∧
    updateIndicatorState s (Some b') = Some b'.
Proof.
  eexists. split; [apply updateIndicatorState_eq|].
  cbn [classList title buttonAttributes].
  split; [|split; [|split; [reflexivity|split]]].
  - intros t Ht. rewrite stateClasses_elem. unfold stateClass.
    destruct Ht as [-> | [-> | ->]];
      destruct (active (store s)), (isFlushing s); simpl; split; intros H;
      repeat match goal with
      | H : _ ∨ _ |- _ => destruct H
      | H : _ ∧ _ |- _ => destruct H
      end; try discriminate; try congruence; tauto.
  - intros t Ht. rewrite stateClasses_elem. unfold isStateClass in Ht.
    split; intros H.
    + repeat match goal with
      | H : _ ∨ _ |- _ => destruct H
      | H : _ ∧ _ |- _ => destruct H
      end; try tauto.
    + right. right. right. tauto.
  - apply lookup_insert_eq.
  - apply (updateIndicatorState_idemp s b). apply updateIndicatorState_eq.
Qed.

(** X18. With the indicator setting on and a toolbar found,
    [ensureIndicator] leaves a button that is a child of the toolbar
    container, carries the ignore attribute and shows the current state;
    calling it again with the same toolbar changes nothing.  With the
    setting off it leaves no button, and with no toolbar it leaves
    [indicatorEl] as it was. *)
Theorem ensureIndicator_places_button (s : State) (tgt : option Target)
    (ind : option Button) :
  marked ind →
  (indicator (store s) = false → ensureIndicator s tgt ind = None) ∧
  (indicator (store s) = true → tgt = None → ensureIndicator s tgt ind = ind) ∧
  (indicator (store s) = true → ∀ t, tgt = Some t →
     ∃ b, ensureIndicator s tgt ind = Some b ∧
          parentElement b = Some (container t) ∧
          buttonAttributes b !! IGNORE_ATTR = Some "true" ∧
          (∀ c, isStateClass c → (c ∈ classList b ↔ c = stateClass s)) ∧
          ensureIndicator s tgt (Some b) = Some b).
Proof.
  intros Hm. split; [|split].
  - intros E. unfold ensureIndicator. rewrite E. reflexivity.
  - intros E ->. unfold ensureIndicator. rewrite E. reflexivity.
  - intros E t ->.
    pose proof (marked_ensureIndicator s (Some t) ind Hm) as Hm'.
    unfold ensureIndicator in *. rewrite E in *. cbn [negb] in *.
    set (b0 := match ind with Some b => b | None => createButton end) in *.
    set (b1 := if bool_decide (parentElement b0 ≠ Some (container t))
               then _ else b0) in *.
    assert (Hp : parentElement b1 = Some (container t)).
    { unfold b1. case_bool_decide as Hd; [reflexivity|].
      destruct (decide (parentElement b0 = Some (container t))) as [e|ne];
        [exact e | contradiction]. }
    destruct (indicator_shows_one_state s b1) as (b' & Eb & Hc & _ & _ & _ & Hid).
    exists b'. split; [exact Eb|].
    assert (Hp' : parentElement b' = Some (container t)).
    { rewrite updateIndicatorState_eq in Eb. injection Eb as <-. exact Hp. }
    split; [exact Hp'|]. split; [apply Hm'; exact Eb|]. split; [exact Hc|].
    rewrite bool_decide_eq_false_2; [exact Hid|].
    intros Hne. apply Hne. exact Hp'.
Qed.

Lemma ensureIndicator_places_button_witness :
  (indicator (store freshState) = false →
     ensureIndicator freshState (Some toolbarEnd) None = None) ∧
  (indicator (store freshState) = true → Some toolbarEnd = None →
     ensureIndicator freshState (Some toolbarEnd) None = None) ∧
  (indicator (store freshState) = true → ∀ t, Some toolbarEnd = Some t →
     ∃ b, ensureIndicator freshState (Some toolbarEnd) None = Some b ∧
          parentElement b = Some (container t) ∧
          buttonAttributes b !! IGNORE_ATTR = Some "true" ∧
          (∀ c, isStateClass c → (c ∈ classList b ↔ c = stateClass freshState)) ∧
          ensureIndicator freshState (Some toolbarEnd) (Some b) = Some b).
Proof.
  apply (ensureIndicator_places_button freshState (Some toolbarEnd) None).
  intros b. discriminate.
Defined.

(** X19. The indicator is never throttled: the button [ensureIndicator]
    leaves carries the ignore attribute, so when it, or a node below it, is
    reported as added, [enqueueTree] returns without touching the
    scheduler. *)
Theorem indicator_is_never_queued (s0 : State) (tgt : option Target)
    (ind : option Button) (b : Button) (n : Inserted) (button : Elem)
    (s : State) :
  marked ind →
  ensureIndicator s0 tgt ind = Some b →
  (∀ name, is_Some (buttonAttributes b !! name) → name ∈ attributes button) →
  (∃ children, node n = Element button children) ∨ button ∈ ancestors n →
  enqueueTree n s = s.
Proof.
  intros Hm Eb Hattr Hn.
  assert (Hig : hasAttribute IGNORE_ATTR button = true).
  { unfold hasAttribute. apply bool_decide_eq_true_2, Hattr.
    rewrite (marked_ensureIndicator s0 tgt ind Hm b Eb). eauto. }
  unfold enqueueTree. destruct (negb (active (store s))); [reflexivity|].
  destruct Hn as [(children & ->) | Hin].
  - unfold closest. cbn [existsb]. rewrite Hig. reflexivity.
  - destruct (node n) as [r cs|]; [|reflexivity].
    assert (closest IGNORE_ATTR r (ancestors n) = true) as ->; [|reflexivity].
    unfold closest. cbn [existsb]. apply orb_true_iff. right.
    apply existsb_exists. exists button. split; [|exact Hig].
    apply list_elem_of_In. exact Hin.
Qed.

Lemma indicator_is_never_queued_witness :
  let button := mkElem 5%positive "BUTTON" INDICATOR_ID [IGNORE_ATTR; "aria-label"] in
  enqueueTree (mkInserted [] (Element button [])) freshState = freshState.
Proof.
  intros button.
  destruct (ensureIndicator freshState (Some toolbarEnd) None) as [b|] eqn:E;
    [|discriminate].
  apply (indicator_is_never_queued freshState (Some toolbarEnd) None b
           (mkInserted [] (Element button [])) button freshState).
  - intros b0. discriminate.
  - exact E.
  - intros name Hname. apply elem_of_dom in Hname.
    rewrite (ensureIndicator_new_attributes _ _ _ E) in Hname.
    cbn [attributes button]. set_solver.
  - left. exists []. reflexivity.
Defined.

End Indicator.
